(** * trustable-grimoirelab-cli: the GrimoireLab API client and the
      git-events statistics engine

    Two modules:
    - [GrimoireLabClient] embeds [trustable_cli/grimoirelab_client.py]:
      the client object, the session it owns, and the retry loop of
      [_make_request], run against an arbitrary server.
    - [Metrics] embeds the statistics engine exercised by
      [tests/unit/test_metrics.py] ([GitEventsAnalyzer]). *)

From Stdlib Require Import String Ascii List Bool Arith ZArith QArith Lia.
From Stdlib Require Import Permutation Sorted.
Import ListNotations.

Local Open Scope string_scope.
Local Open Scope list_scope.
Local Open Scope nat_scope.

(* ================================================================== *)
(** * The HTTP client *)
(* ================================================================== *)

Module GrimoireLabClient.

(** ** Python values the client handles *)

(** A Python [dict] with string keys, as the client uses it for headers,
    JSON payloads and JSON answers.  A value is a string or [None]. *)
Definition Dict := list (string * option string).

(** [d.get(key)]: [None] when the key is absent. *)
Fixpoint dict_get (d : Dict) (key : string) : option string :=
  match d with
  | [] => None
  | (k, v) :: rest => if String.eqb k key then v else dict_get rest key
  end.

(** [d.update({key: v})]. *)
Fixpoint dict_update (d : Dict) (key : string) (v : option string) : Dict :=
  match d with
  | [] => [(key, v)]
  | (k, v0) :: rest =>
      if String.eqb k key then (k, v) :: rest
      else (k, v0) :: dict_update rest key v
  end.

(** Truth value of [str | None]: [None] and the empty string are false. *)
Definition truthy (v : option string) : bool :=
  match v with
  | None => false
  | Some s => negb (String.eqb s "")
  end.

(** What an f-string prints for [str | None]. *)
Definition fstr (v : option string) : string :=
  match v with
  | None => "None"
  | Some s => s
  end.

(** ** requests: responses, exceptions, sessions *)

Inductive Body :=
| NotJson
| JsonObject (fields : Dict).

Record Response := mkResponse {
  status_code : Z;
  body : Body
}.

Inductive Exception :=
| ValueError (msg : string)
| HTTPError (response : Response)
| ConnectionError (msg : string)
| Timeout (msg : string)
| JSONDecodeError
| AttributeError
| OtherError (msg : string).

(** [Response.raise_for_status] of requests raises for 4xx and 5xx. *)
Definition is_http_error (r : Response) : bool :=
  ((400 <=? status_code r) && (status_code r <? 600))%Z.

(** The second [except] clause: [requests.ConnectionError] or
    [requests.Timeout]. *)
Definition is_transport_error (e : Exception) : bool :=
  match e with
  | ConnectionError _ | Timeout _ => true
  | _ => false
  end.

Record Session := mkSession {
  sid : nat;          (* which [requests.Session()] object this is *)
  headers : Dict
}.

Record Request := mkRequest {
  rq_method : string;
  rq_url : string;
  rq_headers : Dict;
  rq_json : option Dict
}.

(** What [session.request] does with one request: an answer of the
    server, or an exception. *)
Inductive Reply :=
| Answer (r : Response)
| Fault (e : Exception).

(** ** The client object and the world around it *)

Record Client := mkClient {
  url : string;
  user : option string;
  password : option string;
  session : option Session;
  _token : option string;
  _refresh_token : option string
}.

Inductive Event :=
| EvSession (id : nat)                 (* requests.Session() *)
| EvRequest (id : nat) (rq : Request)  (* session.request, on session id *)
| EvSleep (delay : nat)                (* time.sleep(delay) *)
| EvLog (msg : string).                (* logging.debug(msg) *)

Record State := mkState {
  self : Client;
  requests_made : nat;
  sessions_created : nat;
  trace : list Event                   (* oldest first *)
}.

(** How a call ends.  [Diverges]: the nesting [_make_request] ->
    [_refresh_auth_token] -> [post] went deeper than the budget given. *)
Inductive Outcome (A : Type) :=
| Returns (v : A) (s : State)
| Raises (e : Exception) (s : State)
| Diverges.
Arguments Returns {A} v s.
Arguments Raises {A} e s.
Arguments Diverges {A}.

Definition M (A : Type) := State -> Outcome A.

Definition ret {A} (v : A) : M A := fun s => Returns v s.
Definition raise {A} (e : Exception) : M A := fun s => Raises e s.
Definition bind {A B} (m : M A) (k : A -> M B) : M B :=
  fun s =>
    match m s with
    | Returns v s1 => k v s1
    | Raises e s1 => Raises e s1
    | Diverges => Diverges
    end.

Notation "x <- m ;; k" := (bind m (fun x => k))
  (at level 61, m at next level, right associativity).
Notation "m ;;; k" := (bind m (fun _ => k))
  (at level 61, right associativity).

Definition emit (ev : Event) : M unit :=
  fun s => Returns tt (mkState (self s) (requests_made s) (sessions_created s)
                               (trace s ++ [ev])).

Definition get_self : M Client := fun s => Returns (self s) s.

Definition set_self (c : Client) : M unit :=
  fun s => Returns tt (mkState c (requests_made s) (sessions_created s) (trace s)).

Definition set_session (c : Client) (x : option Session) : Client :=
  mkClient (url c) (user c) (password c) x (_token c) (_refresh_token c).
Definition set_token (c : Client) (x : option string) : Client :=
  mkClient (url c) (user c) (password c) (session c) x (_refresh_token c).
Definition set_refresh_token (c : Client) (x : option string) : Client :=
  mkClient (url c) (user c) (password c) (session c) (_token c) x.

(** [requests.Session()]: a new session object, no header of ours. *)
Definition new_session : M Session :=
  fun s =>
    let id := sessions_created s in
    Returns (mkSession id [])
            (mkState (self s) (requests_made s) (S id) (trace s ++ [EvSession id])).

(** [self.session.headers.update({"Authorization": f"Bearer {self._token}"})] *)
Definition update_authorization : M unit :=
  c <- get_self ;;
  match session c with
  | None => raise AttributeError
  | Some sess =>
      set_self (set_session c (Some
        (mkSession (sid sess)
           (dict_update (headers sess) "Authorization"
                        (Some ("Bearer " ++ fstr (_token c))%string)))))
  end.

Section Server.

(** The server and the network: the reply to the [n]-th request made,
    which may depend on the request. *)
Variable server : nat -> Request -> Reply.

(** [self.session.request(method, url, json=...)] *)
Definition session_request (method target : string) (json : option Dict)
  : M Response :=
  fun s =>
    match session (self s) with
    | None => Raises AttributeError s
    | Some sess =>
        let rq := mkRequest method target (headers sess) json in
        let s1 := mkState (self s) (S (requests_made s)) (sessions_created s)
                          (trace s ++ [EvRequest (sid sess) rq]) in
        match server (requests_made s) rq with
        | Answer r => Returns r s1
        | Fault e => Raises e s1
        end
    end.

Definition raise_for_status (r : Response) : M unit :=
  if is_http_error r then raise (HTTPError r) else ret tt.

(** [response.json()] *)
Definition json (r : Response) : M Dict :=
  match body r with
  | NotJson => raise JSONDecodeError
  | JsonObject d => ret d
  end.

(** A method call on the value [_make_request] returned. *)
Definition deref (r : option Response) : M Response :=
  match r with
  | None => raise AttributeError
  | Some x => ret x
  end.

(** [_reconnect] *)
Definition _reconnect : M unit :=
  emit (EvLog "Server closed the connection. Reconnecting to the server.") ;;;
  sess <- new_session ;;
  c <- get_self ;;
  set_self (set_session c (Some sess)) ;;;
  if truthy (_token c) then update_authorization else ret tt.

Section Frame.

(** [self.post] as seen from inside [_make_request]: one frame deeper. *)
Variable post_rec : string -> option Dict -> M (option Response).

(** [_refresh_auth_token] *)
Definition _refresh_auth_token : M unit :=
  emit (EvLog "Refreshing token...") ;;;
  c <- get_self ;;
  let credentials := [("refresh", _refresh_token c)] in
  r <- post_rec "token/refresh/" (Some credentials) ;;
  response <- deref r ;;
  raise_for_status response ;;;
  data <- json response ;;
  c <- get_self ;;
  set_self (set_token c (dict_get data "access")) ;;;
  update_authorization.

(** The [except requests.HTTPError as e] clause. *)
Definition on_http_error (response : Response) : M (option Response) :=
  c <- get_self ;;
  (if (status_code response =? 403)%Z && truthy (_refresh_token c)
   then _refresh_auth_token else ret tt) ;;;
  ret (Some response).

(** The [for attempt in range(MAX_RETRIES)] loop and what follows it;
    [attempts] are the values of [attempt] still to come. *)
Fixpoint request_loop (attempts : list nat) (method target : string)
    (json : option Dict) (last_exception : option Exception)
  : M (option Response) :=
  match attempts with
  | [] =>
      match last_exception with
      | Some e => raise e
      | None => ret None
      end
  | attempt :: rest =>
      fun s =>
        match session_request method target json s with
        | Returns response s1 =>
            if is_http_error response then on_http_error response s1
            else Returns (Some response) s1
        | Raises (HTTPError response) s1 => on_http_error response s1
        | Raises e s1 =>
            if is_transport_error e then
              (_reconnect ;;;
               emit (EvSleep (2 ^ attempt)) ;;;
               request_loop rest method target json (Some e)) s1
            else Raises e s1
        | Diverges => Diverges
        end
  end.

End Frame.

Definition MAX_RETRIES : nat := 5.

(** [_make_request]; [depth] bounds how many token refreshes may nest. *)
Fixpoint _make_request (depth : nat) (method uri : string)
    (json : option Dict) : M (option Response) :=
  fun s =>
    match session (self s) with
    | None => Raises (ValueError "Session not connected. Call connect() first.") s
    | Some _ =>
        let target := (url (self s) ++ "/" ++ uri)%string in
        let post_rec :=
          match depth with
          | O => fun _ _ _ => Diverges
          | S d => _make_request d "post"
          end in
        request_loop post_rec (seq 0 MAX_RETRIES) method target json None s
    end.

Definition get (depth : nat) (uri : string) : M (option Response) :=
  _make_request depth "get" uri None.

Definition post (depth : nat) (uri : string) (json : option Dict)
  : M (option Response) :=
  _make_request depth "post" uri json.

(** [connect] *)
Definition connect (depth : nat) : M unit :=
  sess <- new_session ;;
  c <- get_self ;;
  set_self (set_session c (Some sess)) ;;;
  if negb (truthy (user c) && truthy (password c)) then ret tt
  else
    let credentials := [("username", user c); ("password", password c)] in
    r <- post depth "token/" (Some credentials) ;;
    res <- deref r ;;
    raise_for_status res ;;;
    data <- json res ;;
    c <- get_self ;;
    set_self (set_token c (dict_get data "access")) ;;;
    c <- get_self ;;
    set_self (set_refresh_token c (dict_get data "refresh")) ;;;
    update_authorization.

End Server.

(** [GrimoireLabClient(url, user, password)], before anything is sent. *)
Definition __init__ (u : string) (usr pwd : option string) : State :=
  mkState (mkClient u usr pwd None None None) 0 0 [].

(** ** What one failed attempt leaves behind *)

(** The headers of the session [_reconnect] builds for a client. *)
Definition fresh_headers (c : Client) : Dict :=
  if truthy (_token c)
  then [("Authorization", Some ("Bearer " ++ fstr (_token c))%string)]
  else [].

(** The events of one attempt that ends in a connection or timeout
    error: the request, the reconnection, the sleep. *)
Definition failure_events (attempt : nat) (method target : string)
    (json : option Dict) (s : State) : list Event :=
  match session (self s) with
  | None => []
  | Some sess =>
      [EvRequest (sid sess) (mkRequest method target (headers sess) json);
       EvLog "Server closed the connection. Reconnecting to the server.";
       EvSession (sessions_created s);
       EvSleep (2 ^ attempt)]
  end.

Definition after_failure (method target : string) (json : option Dict)
    (s : State) (attempt : nat) : State :=
  mkState
    (set_session (self s)
       (Some (mkSession (sessions_created s) (fresh_headers (self s)))))
    (S (requests_made s))
    (S (sessions_created s))
    (trace s ++ failure_events attempt method target json s).

Definition after_failures (method target : string) (json : option Dict)
    (s : State) (attempts : list nat) : State :=
  fold_left (after_failure method target json) attempts s.

(** The frame below [_make_request] at budget [depth]. *)
Definition post_frame (server : nat -> Request -> Reply) (depth : nat)
  : string -> option Dict -> M (option Response) :=
  match depth with
  | O => fun _ _ _ => Diverges
  | S d => _make_request server d "post"
  end.

(** The delays slept, in order. *)
Fixpoint sleeps (t : list Event) : list nat :=
  match t with
  | [] => []
  | EvSleep d :: rest => d :: sleeps rest
  | _ :: rest => sleeps rest
  end.

(** The requests sent, in order. *)
Fixpoint requests (t : list Event) : list Request :=
  match t with
  | [] => []
  | EvRequest _ rq :: rest => rq :: requests rest
  | _ :: rest => requests rest
  end.

(** The state right after [session.request] was called once. *)
Definition after_request (method target : string) (json : option Dict)
    (s : State) : State :=
  match session (self s) with
  | None => s
  | Some sess =>
      mkState (self s) (S (requests_made s)) (sessions_created s)
              (trace s ++ [EvRequest (sid sess)
                             (mkRequest method target (headers sess) json)])
  end.

(** The last exception the loop holds after the attempts [pre] failed,
    the [n]-th request of the run having raised [errs n]. *)
Definition last_after (errs : nat -> Exception) (first : nat)
    (pre : list nat) (last : option Exception) : option Exception :=
  match pre with
  | [] => last
  | _ :: _ => Some (errs (first + length pre - 1))
  end.

(** ** Sequences of calls on one client *)

Inductive Call :=
| CallConnect
| CallGet (uri : string)
| CallPost (uri : string) (json : option Dict).

Definition run_call (server : nat -> Request -> Reply) (depth : nat)
    (c : Call) : M unit :=
  match c with
  | CallConnect => connect server depth
  | CallGet uri => get server depth uri ;;; ret tt
  | CallPost uri json => post server depth uri json ;;; ret tt
  end.

(** The caller goes on after an exception; [None] when a call diverges. *)
Fixpoint run_calls (server : nat -> Request -> Reply) (depth : nat)
    (calls : list Call) (s : State) : option State :=
  match calls with
  | [] => Some s
  | c :: rest =>
      match run_call server depth c s with
      | Returns _ s1 => run_calls server depth rest s1
      | Raises _ s1 => run_calls server depth rest s1
      | Diverges => None
      end
  end.

(** A client that holds no credentials, no token, and has never put a
    header of its own on a session or a request. *)
Definition Anonymous (s : State) : Prop :=
  truthy (user (self s)) && truthy (password (self s)) = false
  /\ _token (self s) = None
  /\ _refresh_token (self s) = None
  /\ (forall sess, session (self s) = Some sess -> headers sess = [])
  /\ (forall rq, In rq (requests (trace s)) -> rq_headers rq = []).

(** ** Concrete servers and clients used below *)

Definition forbidden : Response := mkResponse 403 NotJson.
Definition unauthorized : Response := mkResponse 401 NotJson.
Definition ok_events : Response :=
  mkResponse 200 (JsonObject [("count", Some "9")]).
Definition ok_token : Response :=
  mkResponse 200 (JsonObject [("access", Some "fresh")]).

(** A client connected with credentials whose access token has expired. *)
Definition stale_client : State :=
  mkState
    (mkClient "http://localhost:8000" (Some "admin") (Some "secret")
       (Some (mkSession 0 [("Authorization", Some "Bearer stale")]))
       (Some "stale") (Some "r1"))
    1 1
    [EvSession 0;
     EvRequest 0 (mkRequest "post" "http://localhost:8000/token/" []
                    (Some [("username", Some "admin"); ("password", Some "secret")]))].

(** A client connected without credentials. *)
Definition anonymous_client : State :=
  mkState (mkClient "http://localhost:8000" None None
             (Some (mkSession 0 [])) None None)
          0 1 [EvSession 0].

(** Rejects the stale token once, grants a new one, then serves
    whoever presents it. *)
Definition expiring_server (n : nat) (rq : Request) : Reply :=
  match n with
  | 1 => Answer forbidden
  | 2 => Answer ok_token
  | _ => match dict_get (rq_headers rq) "Authorization" with
         | Some "Bearer fresh" => Answer ok_events
         | _ => Answer forbidden
         end
  end.

(** Rejects the stale token, and the refresh token too. *)
Definition revoking_server (n : nat) (rq : Request) : Reply :=
  match n with
  | 1 => Answer forbidden
  | _ => Answer unauthorized
  end.

Definition not_found : Response := mkResponse 404 NotJson.

(** Knows no resource. *)
Definition absent_server (n : nat) (rq : Request) : Reply := Answer not_found.

(** Never reachable: alternates resets and timeouts. *)
Definition dead_server (n : nat) (rq : Request) : Reply :=
  if Nat.even n then Fault (ConnectionError "connection reset")
  else Fault (Timeout "read timed out").

Definition dead_errors (i : nat) : Exception :=
  if Nat.even i then ConnectionError "connection reset"
  else Timeout "read timed out".

(** ** States the other operations pass through *)

(** The state after [logging.debug(msg)]. *)
Definition logged (msg : string) (s : State) : State :=
  mkState (self s) (requests_made s) (sessions_created s) (trace s ++ [EvLog msg]).

(** The state after [self.session = requests.Session()]. *)
Definition opened (s : State) : State :=
  mkState (set_session (self s) (Some (mkSession (sessions_created s) [])))
          (requests_made s) (S (sessions_created s))
          (trace s ++ [EvSession (sessions_created s)]).

(** The state after [self._token = tok] and the update of the
    Authorization header of the current session. *)
Definition with_token (tok : option string) (s : State) : State :=
  mkState
    (match session (self s) with
     | None => set_token (self s) tok
     | Some sess =>
         set_session (set_token (self s) tok)
           (Some (mkSession (sid sess)
                    (dict_update (headers sess) "Authorization"
                                 (Some ("Bearer " ++ fstr tok)%string))))
     end)
    (requests_made s) (sessions_created s) (trace s).

(** The state after [self._refresh_token = tok]. *)
Definition with_refresh_token (tok : option string) (s : State) : State :=
  mkState (set_refresh_token (self s) tok)
          (requests_made s) (sessions_created s) (trace s).

(** The credentials [connect] posts. *)
Definition credentials (c : Client) : Dict :=
  [("username", user c); ("password", password c)].

(** A property of the state holds where a call ends. *)
Definition kept {A : Type} (I : State -> Prop) (o : Outcome A) : Prop :=
  match o with
  | Returns _ s' => I s'
  | Raises _ s' => I s'
  | Diverges => True
  end.

(** The session holds no header, or exactly the bearer of the token the
    client holds. *)
Definition coherent (s : State) : Prop :=
  forall sess,
    session (self s) = Some sess ->
    headers sess = []
    \/ headers sess = [("Authorization", Some ("Bearer " ++ fstr (_token (self s)))%string)].

(** Headers as the client writes them: none, or one bearer. *)
Definition bearer_headers (h : Dict) : Prop :=
  h = [] \/ exists tok, h = [("Authorization", Some ("Bearer " ++ fstr tok)%string)].

(** The session is coherent and every request sent so far went out with
    no header or with one bearer. *)
Definition well_authorized (s : State) : Prop :=
  coherent s
  /\ (forall rq, In rq (requests (trace s)) -> bearer_headers (rq_headers rq)).

(** More servers and clients. *)

Definition ok_tokens : Response :=
  mkResponse 200 (JsonObject [("access", Some "a1"); ("refresh", Some "r2")]).

(** Grants tokens to whoever asks. *)
Definition granting_server (n : nat) (rq : Request) : Reply := Answer ok_tokens.

(** Answers 403 to everything, the refresh request included. *)
Definition rejecting_server (n : nat) (rq : Request) : Reply := Answer forbidden.

(** Unreachable twice, then serves. *)
Definition recovering_server (n : nat) (rq : Request) : Reply :=
  if n <? 2 then Fault (ConnectionError "connection reset") else Answer ok_events.

(** Fails in a way that is neither an HTTP status nor a transport error. *)
Definition looping_server (n : nat) (rq : Request) : Reply :=
  Fault (OtherError "too many redirects").

(** A client built with credentials, not yet connected. *)
Definition admin_client : State :=
  __init__ "http://localhost:8000" (Some "admin") (Some "secret").

End GrimoireLabClient.

(* ================================================================== *)
(** * The statistics engine *)
(* ================================================================== *)

Module Metrics.

(** [trustable_cli/metrics.py] (the class [GitEventsAnalyzer]) is not
    among the sources; only its unit tests are.  The data model and the
    operations of this module follow sections 3, 4 and 6 of the
    specification, under the method names the tests call. *)

(** The type tag of a commit event, as the tests write it. *)
Definition COMMIT_EVENT_TYPE : string := "org.grimoirelab.events.git.commit".

(** ** Data model *)

Inductive Category := Code | Other.

Definition Category_eqb (a b : Category) : bool :=
  match a, b with
  | Code, Code | Other, Other => true
  | _, _ => false
  end.

(** One entry of [data.files] in an envelope. *)
Record FileEntry := mkFileEntry {
  path : string;
  added : nat;
  removed : nat
}.

(** The input event envelope: [{type, data: {Author, message, files}}]. *)
Record Envelope := mkEnvelope {
  type : string;
  Author : option string;
  message : string;
  files : list FileEntry
}.

Record FileChange := mkFileChange {
  change_path : string;
  category : Category;
  added_count : nat;
  removed_count : nat
}.

Record CommitRecord := mkCommitRecord {
  identity : string;
  organization : string;
  message_length : nat;
  changes : list FileChange
}.

(** A ledger: (key, running count), in first-seen order. *)
Definition Ledger := list (string * nat).

Record AnalyzerState := mkAnalyzerState {
  total_commit_count : nat;
  total_added : nat;
  total_removed : nat;
  message_lengths : list nat;
  category_counts : list (Category * nat)
}.

Record Engine := mkEngine {
  identities : Ledger;
  organizations : Ledger;
  state : AnalyzerState
}.

(** The engine as constructed: everything empty. *)
Definition GitEventsAnalyzer : Engine :=
  mkEngine [] [] (mkAnalyzerState 0 0 0 [] []).

(** ** EventIngester *)

Fixpoint after_char (c : ascii) (s : string) : option string :=
  match s with
  | EmptyString => None
  | String a rest => if Ascii.eqb a c then Some rest else after_char c rest
  end.

Fixpoint before_char (c : ascii) (s : string) : option string :=
  match s with
  | EmptyString => None
  | String a rest =>
      if Ascii.eqb a c then Some EmptyString
      else option_map (String a) (before_char c rest)
  end.

Definition lower_ascii (a : ascii) : ascii :=
  let n := nat_of_ascii a in
  if (65 <=? n) && (n <=? 90) then ascii_of_nat (n + 32) else a.

Fixpoint lower (s : string) : string :=
  match s with
  | EmptyString => EmptyString
  | String a rest => String (lower_ascii a) (lower rest)
  end.

(** The organization of an author field ["name <email>"]: the domain of
    the email, lower-cased; [None] is the validation error (no
    angle-bracket pattern, or no [@] in the email). *)
Definition parse_organization (author : string) : option string :=
  match after_char "<" author with
  | None => None
  | Some tail =>
      match before_char ">" tail with
      | None => None
      | Some email => option_map lower (after_char "@" email)
      end
  end.

(** The text after the last dot of a path. *)
Fixpoint extension (p : string) : option string :=
  match p with
  | EmptyString => None
  | String a rest =>
      match extension rest with
      | Some e => Some e
      | None => if Ascii.eqb a "." then Some rest else None
      end
  end.

Section Allowlist.

(** The fixed allowlist of code extensions; its content is not given. *)
Variable code_extensions : list string.

Definition classify (p : string) : Category :=
  match extension p with
  | Some e => if existsb (String.eqb e) code_extensions then Code else Other
  | None => Other
  end.

Definition to_change (f : FileEntry) : FileChange :=
  mkFileChange (path f) (classify (path f)) (added f) (removed f).

(** An envelope to a commit record; [None] when it is not a commit event
    or its author field is malformed: the event is skipped. *)
Definition normalize (ev : Envelope) : option CommitRecord :=
  if String.eqb (type ev) COMMIT_EVENT_TYPE then
    match Author ev with
    | None => None
    | Some author =>
        match parse_organization author with
        | None => None
        | Some org =>
            Some (mkCommitRecord author org (String.length (message ev))
                                 (map to_change (files ev)))
        end
    end
  else None.

(** ** ContributorLedger *)

(** [record]: one more commit for [key], a new entry on first sight. *)
Fixpoint record (key : string) (l : Ledger) : Ledger :=
  match l with
  | [] => [(key, 1)]
  | (k, n) :: rest =>
      if String.eqb k key then (k, S n) :: rest
      else (k, n) :: record key rest
  end.

(** Insert an entry seen before every entry of [l]: after the entries
    with a greater count, before those with an equal or smaller one. *)
Fixpoint insert_ranked (x : string * nat) (l : Ledger) : Ledger :=
  match l with
  | [] => [x]
  | y :: rest =>
      if snd x <? snd y then y :: insert_ranked x rest
      else x :: y :: rest
  end.

(** [ranked_by_count]: descending count, ties in first-seen order. *)
Definition ranked_by_count (l : Ledger) : Ledger :=
  fold_right insert_ranked [] l.

Definition distinct_count (l : Ledger) : nat := length l.

(** ** Accumulation *)

Fixpoint bump (c : Category) (m : list (Category * nat)) : list (Category * nat) :=
  match m with
  | [] => [(c, 1)]
  | (k, n) :: rest =>
      if Category_eqb k c then (k, S n) :: rest
      else (k, n) :: bump c rest
  end.

Definition absorb_change (st : AnalyzerState) (fc : FileChange) : AnalyzerState :=
  mkAnalyzerState (total_commit_count st)
                  (total_added st + added_count fc)
                  (total_removed st + removed_count fc)
                  (message_lengths st)
                  (bump (category fc) (category_counts st)).

Definition absorb (e : Engine) (c : CommitRecord) : Engine :=
  let st := state e in
  let st1 := mkAnalyzerState (S (total_commit_count st)) (total_added st)
                             (total_removed st)
                             (message_lengths st ++ [message_length c])
                             (category_counts st) in
  mkEngine (record (identity c) (identities e))
           (record (organization c) (organizations e))
           (fold_left absorb_change (changes c) st1).

Definition process_event (e : Engine) (ev : Envelope) : Engine :=
  match normalize ev with
  | Some c => absorb e c
  | None => e
  end.

(** Modelled from the spec: [process_events] of the missing
    [metrics.py]; sections 4.1 and 4.2: merge one batch into the engine,
    skipping what is not a well-formed commit event. *)
Definition process_events (e : Engine) (events : list Envelope) : Engine :=
  fold_left process_event events e.

(** Successive ingestion calls on a new engine. *)
Definition ingested (batches : list (list Envelope)) : Engine :=
  fold_left process_events batches GitEventsAnalyzer.

End Allowlist.

(** ** MetricsEngine *)

Inductive Result (A : Type) :=
| Ok (v : A)
| ZeroDivisionError.
Arguments Ok {A} v.
Arguments ZeroDivisionError {A}.

Definition get_commit_count (e : Engine) : nat := total_commit_count (state e).

Definition get_contributor_count (e : Engine) : nat := distinct_count (identities e).

Definition counts (l : Ledger) : list nat := map snd l.

(** Half of the total, rounded up. *)
Definition ceil_half (total : nat) : nat := (total + 1) / 2.

(** Walk the ranked counts until the running sum reaches [threshold];
    [k] contributors were taken before, their sum being [cum]. *)
Fixpoint take_until (ranked : list nat) (threshold cum k : nat) : nat :=
  match ranked with
  | [] => k
  | c :: rest =>
      if threshold <=? cum + c then S k
      else take_until rest threshold (cum + c) (S k)
  end.

(** Modelled from the spec: [get_pony_factor] and [get_elephant_factor]
    of the missing [metrics.py]; section 4.3: the smallest k such that
    the top-k ranked counts sum to at least the rounded-up half of the
    total, 0 when there is no commit. *)
Definition diversity_factor (l : Ledger) (total : nat) : nat :=
  if total =? 0 then 0
  else take_until (counts (ranked_by_count l)) (ceil_half total) 0 0.

Definition get_pony_factor (e : Engine) : nat :=
  diversity_factor (identities e) (get_commit_count e).

Definition get_elephant_factor (e : Engine) : nat :=
  diversity_factor (organizations e) (get_commit_count e).

(** Modelled from the spec: [get_file_type_metrics] of the missing
    [metrics.py]; section 4.3: category to cumulative change count. *)
Definition get_file_type_metrics (e : Engine) : list (Category * nat) :=
  category_counts (state e).

Record CommitSize := mkCommitSize {
  added_lines : nat;
  removed_lines : nat
}.

(** Modelled from the spec: [get_commit_size_metrics] of the missing
    [metrics.py]; section 4.3: the two running totals. *)
Definition get_commit_size_metrics (e : Engine) : CommitSize :=
  mkCommitSize (total_added (state e)) (total_removed (state e)).

(** [a / b] on numbers, as Python has it: an error when [b] is zero. *)
Definition divide (a b : Q) : Result Q :=
  if Qeq_bool b 0 then ZeroDivisionError else Ok (a / b)%Q.

(** Modelled from the spec: [get_average_commits_week] of the missing
    [metrics.py]; section 4.3: [commit_count / days_interval / 7], not
    guarded against a zero interval.  Exact rationals stand for floats. *)
Definition get_average_commits_week (e : Engine) (days_interval : Z) : Result Q :=
  match divide (inject_Z (Z.of_nat (get_commit_count e))) (inject_Z days_interval) with
  | ZeroDivisionError => ZeroDivisionError
  | Ok per_day => divide per_day 7
  end.

Record Categories := mkCategories {
  core : nat;
  regular : nat;
  casual : nat
}.

Inductive Tier := Core | Regular | Casual.

(** The tier of a cumulative share. *)
Definition tier_of_share (share : Q) : Tier :=
  if Qle_bool share (80 # 100) then Core
  else if Qle_bool share (95 # 100) then Regular
  else Casual.

Definition count_tier (t : Tier) (acc : Categories) : Categories :=
  match t with
  | Core => mkCategories (S (core acc)) (regular acc) (casual acc)
  | Regular => mkCategories (core acc) (S (regular acc)) (casual acc)
  | Casual => mkCategories (core acc) (regular acc) (S (casual acc))
  end.

(** Walk the ranked counts with the running sum [cum]. *)
Fixpoint categorize (ranked : list nat) (total cum : nat) (acc : Categories)
  : Result Categories :=
  match ranked with
  | [] => Ok acc
  | c :: rest =>
      match divide (inject_Z (Z.of_nat (cum + c))) (inject_Z (Z.of_nat total)) with
      | ZeroDivisionError => ZeroDivisionError
      | Ok share => categorize rest total (cum + c) (count_tier (tier_of_share share) acc)
      end
  end.

(** Modelled from the spec: [get_developer_categories] of the missing
    [metrics.py]; section 4.3: walk the ranked contributors with the
    running share of the total, core up to 0.80, regular up to 0.95,
    casual beyond; all zero when there is no commit. *)
Definition get_developer_categories (e : Engine) : Result Categories :=
  if get_commit_count e =? 0 then Ok (mkCategories 0 0 0)
  else categorize (counts (ranked_by_count (identities e))) (get_commit_count e) 0
                  (mkCategories 0 0 0).

(** ** Vocabulary of the statements *)

Definition sum (l : list nat) : nat := fold_right Nat.add 0 l.

(** The tier the specification gives the contributor of rank [i]
    (0-based): by the share of the first [i + 1] ranked counts. *)
Definition tier_at (ranked : list nat) (total i : nat) : Tier :=
  tier_of_share (inject_Z (Z.of_nat (sum (firstn (S i) ranked)))
                 / inject_Z (Z.of_nat total))%Q.

Definition tier_rank (t : Tier) : nat :=
  match t with
  | Core => 0
  | Regular => 1
  | Casual => 2
  end.

(** Tiers assigned "while": the first [a] ranks are core, the next [b]
    regular, the others casual. *)
Definition phase (a b i : nat) : Tier :=
  if i <? a then Core
  else if i <? a + b then Regular
  else Casual.

(** [acc] tallies the tiers [f 0 .. f (m - 1)], and these come in
    phases. *)
Definition tally_ok (f : nat -> Tier) (m : nat) (acc : Categories) : Prop :=
  core acc + regular acc + casual acc = m
  /\ (forall i, i < m -> f i = phase (core acc) (regular acc) i).

(** Descending order of counts. *)
Definition descending (l : Ledger) : Prop :=
  StronglySorted (fun x y => snd y <= snd x) l.

(** The entries of a given count, in the order they stand. *)
Definition with_count (c : nat) (l : Ledger) : Ledger :=
  filter (fun x => snd x =? c) l.

(** The invariant of section 3: both ledgers sum to the commit count,
    and an engine without commits is the engine as constructed. *)
Definition consistent (e : Engine) : Prop :=
  sum (counts (identities e)) = get_commit_count e
  /\ sum (counts (organizations e)) = get_commit_count e
  /\ (get_commit_count e = 0 -> e = GitEventsAnalyzer).

(** ** The fixture of the unit tests *)

Definition commit (author : string) : Envelope :=
  mkEnvelope COMMIT_EVENT_TYPE (Some author) "Another commit" [].

(** Modelled from the spec: [data/events.json] is not among the
    sources.  Section 8 gives it 9 commits by 3 contributors, and its
    scenarios 4 and 5 leave one profile of counts: 5, 3 and 1.  The
    author strings and the order of the events are arbitrary. *)
Definition fixture_events : list Envelope :=
  [commit "Ada <ada@example.com>";
   commit "Bob <bob@example.org>";
   commit "Ada <ada@example.com>";
   commit "Cyd <cyd@example.com>";
   commit "Bob <bob@example.org>";
   commit "Ada <ada@example.com>";
   commit "Ada <ada@example.com>";
   commit "Bob <bob@example.org>";
   commit "Ada <ada@example.com>"].

(** The extra events of [test_get_pony_factor] ([n = 3]) and of
    [test_get_developer_categories] ([n = 4]). *)
Definition extra_events (author : string) (n : nat) : list Envelope :=
  repeat (commit author) n.

(** An envelope the ingester accepts: a commit event with a well-formed
    author field. *)
Definition accepted (code_extensions : list string) (ev : Envelope) : bool :=
  match normalize code_extensions ev with
  | Some _ => true
  | None => false
  end.

(** The character occurs in the string. *)
Fixpoint occurs (c : ascii) (s : string) : bool :=
  match s with
  | EmptyString => false
  | String a rest => Ascii.eqb a c || occurs c rest
  end.

(** An author field of the shape [name<local@domain>rest]: the first
    [<] is followed by a [>], and an [@] stands between them. *)
Definition well_formed_author (author : string) : Prop :=
  exists name local domain rest,
    author = (name ++ "<" ++ local ++ "@" ++ domain ++ ">" ++ rest)%string
    /\ occurs "<" name = false
    /\ occurs "@" local = false
    /\ occurs ">" local = false
    /\ occurs ">" domain = false.

(** The key already has an entry in the ledger. *)
Definition known (key : string) (l : Ledger) : bool :=
  existsb (fun k => String.eqb k key) (map fst l).

End Metrics.

(* ================================================================== *)
(** * The HTTP client: proofs *)
(* ================================================================== *)

Module ClientProofs.
Import GrimoireLabClient.

Section LoopFacts.

Variable server : nat -> Request -> Reply.

Lemma make_request_unfold depth method uri json s sess :
  session (self s) = Some sess ->
  _make_request server depth method uri json s =
  request_loop server (post_frame server depth) (seq 0 MAX_RETRIES) method
               (url (self s) ++ "/" ++ uri)%string json None s.
Proof.
  intros Hs. destruct depth; simpl; rewrite Hs; reflexivity.
Qed.

Lemma update_authorization_connected s sess :
  session (self s) = Some sess ->
  update_authorization s =
  Returns tt (mkState
    (set_session (self s) (Some (mkSession (sid sess)
       (dict_update (headers sess) "Authorization"
                    (Some ("Bearer " ++ fstr (_token (self s)))%string)))))
    (requests_made s) (sessions_created s) (trace s)).
Proof.
  intros Hs. unfold update_authorization, bind, get_self. rewrite Hs.
  reflexivity.
Qed.

Lemma reconnect_spec s :
  _reconnect s =
  Returns tt (mkState
    (set_session (self s)
       (Some (mkSession (sessions_created s) (fresh_headers (self s)))))
    (requests_made s) (S (sessions_created s))
    (trace s ++ [EvLog "Server closed the connection. Reconnecting to the server.";
                 EvSession (sessions_created s)])).
Proof.
  unfold _reconnect, bind, emit, new_session, get_self, set_self, fresh_headers.
  cbn [self requests_made sessions_created trace set_session _token].
  destruct (truthy (_token (self s))) eqn:Ht.
  - unfold update_authorization, bind, get_self, set_self.
    cbn [self requests_made sessions_created trace set_session session
         _token sid headers url user password _refresh_token dict_update].
    rewrite <- app_assoc. reflexivity.
  - unfold ret. rewrite <- app_assoc. reflexivity.
Qed.

(** One attempt that fails in transport: reconnect, sleep, go on. *)
Lemma loop_transport_step post_rec attempt rest method target json last s sess e :
  session (self s) = Some sess ->
  server (requests_made s) (mkRequest method target (headers sess) json) = Fault e ->
  is_transport_error e = true ->
  request_loop server post_rec (attempt :: rest) method target json last s =
  request_loop server post_rec rest method target json (Some e)
               (after_failure method target json s attempt).
Proof.
  intros Hs Hf He.
  cbn [request_loop]. unfold session_request. rewrite Hs, Hf.
  assert (Hgo :
    (_reconnect ;;; emit (EvSleep (2 ^ attempt)) ;;;
     request_loop server post_rec rest method target json (Some e))
      (mkState (self s) (S (requests_made s)) (sessions_created s)
         (trace s ++ [EvRequest (sid sess)
                        (mkRequest method target (headers sess) json)])) =
    request_loop server post_rec rest method target json (Some e)
                 (after_failure method target json s attempt)).
  { unfold bind at 1. rewrite reconnect_spec.
    unfold bind, emit.
    cbn [self requests_made sessions_created trace].
    unfold after_failure, failure_events. rewrite Hs.
    rewrite <- !app_assoc. reflexivity. }
  destruct e; simpl in He; try discriminate; exact Hgo.
Qed.

Lemma after_failure_session method target json s attempt :
  session (self (after_failure method target json s attempt)) =
  Some (mkSession (sessions_created s) (fresh_headers (self s))).
Proof. reflexivity. Qed.

Lemma after_failure_counters method target json s attempt :
  requests_made (after_failure method target json s attempt) = S (requests_made s)
  /\ sessions_created (after_failure method target json s attempt) = S (sessions_created s)
  /\ fresh_headers (self (after_failure method target json s attempt)) = fresh_headers (self s)
  /\ _token (self (after_failure method target json s attempt)) = _token (self s)
  /\ _refresh_token (self (after_failure method target json s attempt)) = _refresh_token (self s)
  /\ url (self (after_failure method target json s attempt)) = url (self s).
Proof. repeat split; reflexivity. Qed.

(** A run of attempts that all fail in transport. *)
Lemma loop_failures_prefix post_rec errs pre :
  forall rest method target json last s sess,
    session (self s) = Some sess ->
    (forall i rq, i < length pre ->
       server (requests_made s + i) rq = Fault (errs (requests_made s + i))
       /\ is_transport_error (errs (requests_made s + i)) = true) ->
    request_loop server post_rec (pre ++ rest) method target json last s =
    request_loop server post_rec rest method target json
                 (last_after errs (requests_made s) pre last)
                 (after_failures method target json s pre).
Proof.
  induction pre as [|a pre IH]; intros rest method target json last s sess Hs Hall.
  - reflexivity.
  - destruct (Hall 0 (mkRequest method target (headers sess) json)) as [Hf He];
      [simpl; lia|].
    rewrite Nat.add_0_r in Hf, He.
    cbn [app].
    rewrite (loop_transport_step post_rec a (pre ++ rest) method target json last
               s sess _ Hs Hf He).
    rewrite (IH rest method target json _ _ _
               (after_failure_session method target json s a)).
    + cbn [after_failures fold_left]. f_equal.
      unfold last_after. cbn [after_failure requests_made length].
      destruct pre as [|b pre]; [f_equal; f_equal; simpl; lia|].
      f_equal. f_equal. simpl. lia.
    + intros i rq Hi. cbn [after_failure requests_made].
      replace (S (requests_made s) + i) with (requests_made s + S i) by lia.
      apply Hall. simpl. lia.
Qed.

Lemma sleeps_app t1 t2 : sleeps (t1 ++ t2) = sleeps t1 ++ sleeps t2.
Proof.
  induction t1 as [|ev t1 IH]; [reflexivity|].
  destruct ev; simpl; rewrite IH; reflexivity.
Qed.

Lemma requests_app t1 t2 : requests (t1 ++ t2) = requests t1 ++ requests t2.
Proof.
  induction t1 as [|ev t1 IH]; [reflexivity|].
  destruct ev; simpl; rewrite IH; reflexivity.
Qed.

(** What a run of failed attempts leaves: the counters, the client and
    the delays slept. *)
Lemma after_failures_spec method target json pre :
  forall s sess,
    session (self s) = Some sess ->
    let s' := after_failures method target json s pre in
    requests_made s' = requests_made s + length pre
    /\ sessions_created s' = sessions_created s + length pre
    /\ _token (self s') = _token (self s)
    /\ _refresh_token (self s') = _refresh_token (self s)
    /\ url (self s') = url (self s)
    /\ sleeps (trace s') = sleeps (trace s) ++ map (fun a => 2 ^ a) pre
    /\ length (requests (trace s')) = length (requests (trace s)) + length pre
    /\ session (self s') =
       match pre with
       | [] => Some sess
       | _ :: _ => Some (mkSession (sessions_created s + length pre - 1)
                                   (fresh_headers (self s)))
       end.
Proof.
  induction pre as [|a pre IH]; intros s sess Hs.
  - cbn. rewrite !Nat.add_0_r, app_nil_r. repeat split; auto.
  - cbn zeta. cbn [after_failures fold_left].
    destruct (IH (after_failure method target json s a) _
                 (after_failure_session method target json s a))
      as (H1 & H2 & H3 & H4 & H5 & H6 & H7 & H8).
    cbn zeta in *. unfold after_failures in *.
    rewrite H1, H2, H3, H4, H5, H6, H7, H8.
    cbn [after_failure requests_made sessions_created self set_session
         _token _refresh_token url trace length map].
    unfold failure_events. rewrite Hs.
    rewrite sleeps_app, requests_app, length_app. cbn [sleeps requests length].
    rewrite <- app_assoc. cbn [app].
    repeat split; try lia; try reflexivity.
    destruct pre as [|b pre]; f_equal; f_equal; simpl; lia.
Qed.

(** An attempt the server answers without an error status. *)
Lemma loop_success_step post_rec attempt rest method target json last s sess r :
  session (self s) = Some sess ->
  server (requests_made s) (mkRequest method target (headers sess) json) = Answer r ->
  is_http_error r = false ->
  request_loop server post_rec (attempt :: rest) method target json last s =
  Returns (Some r) (after_request method target json s).
Proof.
  intros Hs Ha Hr. cbn [request_loop]. unfold session_request, after_request.
  rewrite Hs, Ha, Hr. reflexivity.
Qed.

(** An attempt the server answers with an error status: the handler of
    [requests.HTTPError] decides, whatever attempts remain. *)
Lemma loop_http_error_step post_rec attempt rest method target json last s sess r :
  session (self s) = Some sess ->
  server (requests_made s) (mkRequest method target (headers sess) json) = Answer r ->
  is_http_error r = true ->
  request_loop server post_rec (attempt :: rest) method target json last s =
  on_http_error post_rec r (after_request method target json s).
Proof.
  intros Hs Ha Hr. cbn [request_loop]. unfold session_request, after_request.
  rewrite Hs, Ha, Hr. reflexivity.
Qed.

Lemma on_http_error_spec post_rec r s :
  on_http_error post_rec r s =
  if (status_code r =? 403)%Z && truthy (_refresh_token (self s))
  then match _refresh_auth_token post_rec s with
       | Returns _ s2 => Returns (Some r) s2
       | Raises e s2 => Raises e s2
       | Diverges => Diverges
       end
  else Returns (Some r) s.
Proof.
  unfold on_http_error, bind, get_self.
  destruct ((status_code r =? 403)%Z && truthy (_refresh_token (self s))).
  - destruct (_refresh_auth_token post_rec s); reflexivity.
  - reflexivity.
Qed.

End LoopFacts.

(* ------------------------------------------------------------------ *)
(** ** Requests before [connect] *)

(** C8: while [session] is [None], [_make_request], [get] and [post]
    raise [ValueError] for every method and URI, and the state they
    leave is the state they found: no request is sent, nothing is
    retried, nothing changes. *)
Theorem request_before_connect_raises_ValueError
    server depth method uri json s :
  session (self s) = None ->
  let err := ValueError "Session not connected. Call connect() first." in
  _make_request server depth method uri json s = Raises err s
  /\ get server depth uri s = Raises err s
  /\ post server depth uri json s = Raises err s.
Proof.
  intros Hs err. unfold get, post.
  repeat split; destruct depth; simpl; rewrite Hs; reflexivity.
Qed.

Lemma request_before_connect_witness :
  session (self (__init__ "http://localhost:8000" None None)) = None
  /\ get dead_server 3 "events/" (__init__ "http://localhost:8000" None None)
     = Raises (ValueError "Session not connected. Call connect() first.")
              (__init__ "http://localhost:8000" None None).
Proof.
  split; [reflexivity|].
  apply (request_before_connect_raises_ValueError dead_server 3 "get" "events/"
           None (__init__ "http://localhost:8000" None None)).
  reflexivity.
Defined.

(* ------------------------------------------------------------------ *)
(** ** Transport failures: reconnection, backoff, exhaustion *)

Lemma seq_split_at n m : n <= m -> seq 0 m = seq 0 n ++ seq n (m - n).
Proof.
  intros H. replace m with (n + (m - n)) at 1 by lia.
  rewrite seq_app. reflexivity.
Qed.

(** The first [n] attempts fail in transport: the loop goes on with the
    attempts that remain. *)
Lemma make_request_after_failures server depth method uri json s sess errs n :
  session (self s) = Some sess ->
  n <= MAX_RETRIES ->
  (forall i rq, i < n ->
     server (requests_made s + i) rq = Fault (errs i)
     /\ is_transport_error (errs i) = true) ->
  _make_request server depth method uri json s =
  request_loop server (post_frame server depth) (seq n (MAX_RETRIES - n))
    method (url (self s) ++ "/" ++ uri)%string json
    (match n with O => None | S k => Some (errs k) end)
    (after_failures method (url (self s) ++ "/" ++ uri)%string json s (seq 0 n)).
Proof.
  intros Hs Hn Hall.
  set (errs' := fun k => errs (k - requests_made s)).
  assert (Hall' : forall i rq, i < length (seq 0 n) ->
            server (requests_made s + i) rq = Fault (errs' (requests_made s + i))
            /\ is_transport_error (errs' (requests_made s + i)) = true).
  { intros i rq Hi. rewrite length_seq in Hi. unfold errs'.
    replace (requests_made s + i - requests_made s) with i by lia.
    apply Hall; exact Hi. }
  rewrite (make_request_unfold server depth method uri json s sess Hs).
  rewrite (seq_split_at n MAX_RETRIES Hn).
  rewrite (loop_failures_prefix server (post_frame server depth) errs' (seq 0 n)
             _ method _ json None s sess Hs Hall').
  f_equal.
  unfold last_after. destruct n as [|k]; [reflexivity|].
  rewrite length_seq. cbn [seq]. unfold errs'. f_equal. f_equal. lia.
Qed.

(** C7: when the first [n] attempts of a request fail with a connection
    or timeout error, the client has sent [n] requests, has opened a new
    session after each failure (the newest one carries the bearer token
    when one is held, and no header otherwise), has slept 2^attempt
    after attempt number [attempt], and is left with the attempts
    [n .. MAX_RETRIES - 1]; with [MAX_RETRIES = 5] the delays are
    1, 2, 4, 8, 16 and no sixth attempt is made. *)
Theorem transport_failure_reconnects_and_backs_off
    server depth method uri json s sess errs n :
  session (self s) = Some sess ->
  n <= MAX_RETRIES ->
  (forall i rq, i < n ->
     server (requests_made s + i) rq = Fault (errs i)
     /\ is_transport_error (errs i) = true) ->
  let target := (url (self s) ++ "/" ++ uri)%string in
  let s' := after_failures method target json s (seq 0 n) in
  MAX_RETRIES = 5
  /\ _make_request server depth method uri json s =
     request_loop server (post_frame server depth) (seq n (MAX_RETRIES - n))
       method target json
       (match n with O => None | S k => Some (errs k) end) s'
  /\ length (requests (trace s')) = length (requests (trace s)) + n
  /\ sessions_created s' = sessions_created s + n
  /\ sleeps (trace s') = sleeps (trace s) ++ map (fun attempt => 2 ^ attempt) (seq 0 n)
  /\ (0 < n ->
      session (self s') =
      Some (mkSession (sessions_created s + n - 1)
              (if truthy (_token (self s))
               then [("Authorization", Some ("Bearer " ++ fstr (_token (self s)))%string)]
               else [])))
  /\ _token (self s') = _token (self s)
  /\ (n = MAX_RETRIES ->
      sleeps (trace s') = sleeps (trace s) ++ [1; 2; 4; 8; 16]
      /\ _make_request server depth method uri json s = Raises (errs 4) s').
Proof.
  intros Hs Hn Hall target s'.
  pose proof (make_request_after_failures server depth method uri json s sess
                errs n Hs Hn Hall) as Hrun.
  fold target in Hrun. fold s' in Hrun.
  destruct (after_failures_spec method target json (seq 0 n) s sess Hs)
    as (H1 & H2 & H3 & H4 & H5 & H6 & H7 & H8).
  fold s' in H1, H2, H3, H4, H5, H6, H7, H8. rewrite length_seq in *.
  repeat split; auto.
  - intros Hpos. rewrite H8. destruct n as [|k]; [lia|]. reflexivity.
  - subst n. rewrite H6. reflexivity.
  - subst n. rewrite Hrun. rewrite Nat.sub_diag. reflexivity.
Qed.

Lemma transport_failure_backoff_witness :
  exists s',
    _make_request dead_server 0 "get" "events/" None anonymous_client
    = Raises (ConnectionError "connection reset") s'
    /\ sleeps (trace s') = [1; 2; 4; 8; 16].
Proof.
  eexists.
  pose proof (transport_failure_reconnects_and_backs_off dead_server 0 "get"
    "events/" None anonymous_client (mkSession 0 []) dead_errors 5
    eq_refl (le_n 5)) as H.
  cbv zeta in H.
  destruct H as (_ & _ & _ & _ & _ & _ & _ & H).
  - intros i rq Hi. do 5 (destruct i as [|i]; [split; reflexivity|]). lia.
  - destruct (H eq_refl) as [Hsl Hr]. split; [exact Hr | exact Hsl].
Defined.

(** C6: when each of the [MAX_RETRIES] attempts of a [get] or [post]
    ends in a connection or timeout error, the call raises the error of
    the last attempt, the very exception value [session.request] raised,
    after exactly [MAX_RETRIES] requests. *)
Theorem exhausted_retries_raise_last_transport_error
    server depth method uri json s sess errs :
  session (self s) = Some sess ->
  (forall i rq, i < MAX_RETRIES ->
     server (requests_made s + i) rq = Fault (errs i)
     /\ is_transport_error (errs i) = true) ->
  exists s',
    _make_request server depth method uri json s = Raises (errs (MAX_RETRIES - 1)) s'
    /\ (method = "get" /\ json = None -> get server depth uri s = Raises (errs (MAX_RETRIES - 1)) s')
    /\ (method = "post" -> post server depth uri json s = Raises (errs (MAX_RETRIES - 1)) s')
    /\ requests_made s' = requests_made s + MAX_RETRIES.
Proof.
  intros Hs Hall.
  pose proof (make_request_after_failures server depth method uri json s sess
                errs MAX_RETRIES Hs (le_n _) Hall) as Hr.
  rewrite Nat.sub_diag in Hr.
  change (seq MAX_RETRIES 0) with (@nil nat) in Hr.
  cbn [request_loop] in Hr. unfold raise in Hr.
  eexists. split; [exact Hr|].
  split; [intros [-> ->]; exact Hr|].
  split; [intros ->; exact Hr|].
  destruct (after_failures_spec method (url (self s) ++ "/" ++ uri)%string json
              (seq 0 MAX_RETRIES) s sess Hs) as (H1 & _).
  rewrite H1, length_seq; reflexivity.
Qed.

Lemma exhausted_retries_witness :
  exists s',
    _make_request dead_server 0 "post" "token/" None anonymous_client
    = Raises (ConnectionError "connection reset") s'.
Proof.
  destruct (exhausted_retries_raise_last_transport_error dead_server 0 "post"
    "token/" None anonymous_client (mkSession 0 []) dead_errors eq_refl)
    as (s' & H & _).
  - intros i rq Hi. unfold MAX_RETRIES in Hi.
    do 5 (destruct i as [|i]; [split; reflexivity|]). lia.
  - exists s'. exact H.
Defined.

(* ------------------------------------------------------------------ *)
(** ** HTTP error statuses *)

(** C5, on the code: a client holding a refresh token gets 403 for an
    expired access token; the refresh succeeds and the server would
    serve the same request under the new token, yet [get] returns the
    403 response after two requests (the original one and the refresh):
    the request is not sent again. *)
Theorem expired_token_request_is_not_retried :
  exists s',
    get expiring_server 1 "events/" stale_client = Returns (Some forbidden) s'
    /\ _token (self s') = Some "fresh"
    /\ requests_made s' = requests_made stale_client + 2
    /\ map rq_url (requests (trace s')) =
       ["http://localhost:8000/token/"; "http://localhost:8000/events/";
        "http://localhost:8000/token/refresh/"]
    /\ expiring_server (requests_made s')
         (mkRequest "get" "http://localhost:8000/events/"
            [("Authorization", Some "Bearer fresh")] None) = Answer ok_events.
Proof.
  eexists. split; [vm_compute; reflexivity|].
  repeat split.
Qed.

(** C9, as the code has it: when an attempt is answered with an error
    status (4xx, 5xx) and the status is not a 403 received while a
    refresh token is held, the call returns that response at that
    attempt, whatever attempts remain: one request, no sleep, the client
    unchanged.  When the status is 403 and a refresh token is held,
    [_refresh_auth_token] runs, and an exception it raises is the
    exception the call raises. *)
Theorem http_error_response_ends_the_loop
    server depth post_rec attempt rest method uri target json last s sess r :
  session (self s) = Some sess ->
  is_http_error r = true ->
  let refreshes := (status_code r =? 403)%Z && truthy (_refresh_token (self s)) in
  let full := (url (self s) ++ "/" ++ uri)%string in
  (server (requests_made s) (mkRequest method target (headers sess) json) = Answer r ->
   (refreshes = false ->
    request_loop server post_rec (attempt :: rest) method target json last s =
    Returns (Some r) (after_request method target json s))
   /\ (refreshes = true ->
       forall e s2,
         _refresh_auth_token post_rec (after_request method target json s) = Raises e s2 ->
         request_loop server post_rec (attempt :: rest) method target json last s =
         Raises e s2))
  /\ (server (requests_made s) (mkRequest method full (headers sess) json) = Answer r ->
      (refreshes = false ->
       _make_request server depth method uri json s =
       Returns (Some r) (after_request method full json s))
      /\ (refreshes = true ->
          forall e s2,
            _refresh_auth_token (post_frame server depth)
                                (after_request method full json s) = Raises e s2 ->
            _make_request server depth method uri json s = Raises e s2))
  /\ requests_made (after_request method target json s) = S (requests_made s)
  /\ sleeps (trace (after_request method target json s)) = sleeps (trace s)
  /\ self (after_request method target json s) = self s.
Proof.
  intros Hs Hr refreshes full.
  assert (Hself : forall t, self (after_request method t json s) = self s).
  { intros t. unfold after_request. rewrite Hs. reflexivity. }
  assert (Hloop : forall frame a l t lst,
    server (requests_made s) (mkRequest method t (headers sess) json) = Answer r ->
    (refreshes = false ->
     request_loop server frame (a :: l) method t json lst s =
     Returns (Some r) (after_request method t json s))
    /\ (refreshes = true ->
        forall e s2,
          _refresh_auth_token frame (after_request method t json s) = Raises e s2 ->
          request_loop server frame (a :: l) method t json lst s = Raises e s2)).
  { intros frame a l t lst Ha.
    rewrite (loop_http_error_step server frame a l method t json lst s sess r
               Hs Ha Hr).
    rewrite on_http_error_spec, Hself. fold refreshes.
    split; intros Hb; rewrite Hb; [reflexivity|].
    intros e s2 He. rewrite He. reflexivity. }
  split; [|split; [|split; [|split]]].
  - apply Hloop.
  - intros Ha.
    rewrite (make_request_unfold server depth method uri json s sess Hs).
    unfold MAX_RETRIES. cbn [seq]. apply Hloop, Ha.
  - unfold after_request. rewrite Hs. reflexivity.
  - unfold after_request. rewrite Hs. cbn [trace].
    rewrite sleeps_app. cbn [sleeps]. apply app_nil_r.
  - apply Hself.
Qed.

Lemma http_error_response_witness :
  exists s',
    _make_request absent_server 0 "get" "events/" None anonymous_client
    = Returns (Some not_found) s'
    /\ requests_made s' = 1.
Proof.
  pose proof (http_error_response_ends_the_loop absent_server 0
    (post_frame absent_server 0) 0 [] "get" "events/"
    "http://localhost:8000/events/" None None anonymous_client
    (mkSession 0 []) not_found eq_refl eq_refl) as H.
  cbv zeta in H. destruct H as (_ & H & _).
  destruct (H eq_refl) as [Hret _].
  eexists. split; [apply Hret; reflexivity | reflexivity].
Defined.

(** C9 as stated fails: the server answers 403, the client holds a
    refresh token, and the refresh request is answered 401; the call
    raises [HTTPError] instead of returning the 403 response. *)
Lemma http_error_response_not_always_returned :
  revoking_server (requests_made stale_client)
    (mkRequest "get" "http://localhost:8000/events/"
       [("Authorization", Some "Bearer stale")] None) = Answer forbidden
  /\ is_http_error forbidden = true
  /\ (exists s', _make_request revoking_server 1 "get" "events/" None stale_client
                 = Raises (HTTPError unauthorized) s')
  /\ (forall s', _make_request revoking_server 1 "get" "events/" None stale_client
                 <> Returns (Some forbidden) s').
Proof.
  split; [reflexivity|]. split; [reflexivity|]. split.
  - eexists. vm_compute. reflexivity.
  - intros s' H. vm_compute in H. discriminate H.
Qed.

(* ------------------------------------------------------------------ *)
(** ** Clients without credentials *)

Section AnonymousFacts.

Variable server : nat -> Request -> Reply.

Lemma loop_fault_step post_rec attempt rest method target json last s sess e :
  session (self s) = Some sess ->
  server (requests_made s) (mkRequest method target (headers sess) json) = Fault e ->
  is_transport_error e = false ->
  request_loop server post_rec (attempt :: rest) method target json last s =
  match e with
  | HTTPError r => on_http_error post_rec r (after_request method target json s)
  | _ => Raises e (after_request method target json s)
  end.
Proof.
  intros Hs Hf He. cbn [request_loop]. unfold session_request, after_request.
  rewrite Hs, Hf. destruct e; simpl in He; try discriminate; reflexivity.
Qed.

Lemma anonymous_after_request method target json s :
  Anonymous s -> Anonymous (after_request method target json s).
Proof.
  intros Hanon. unfold after_request.
  destruct (session (self s)) as [sess|] eqn:Hs; [|exact Hanon].
  destruct Hanon as (Hc & Ht & Hr & Hh & Hq).
  repeat split; cbn [self trace]; try assumption.
  intros rq Hin. rewrite requests_app in Hin. apply in_app_or in Hin.
  destruct Hin as [Hin|Hin]; [apply Hq; exact Hin|].
  cbn in Hin. destruct Hin as [<-|[]]. cbn. apply (Hh sess Hs).
Qed.

Lemma anonymous_after_failure method target json s attempt :
  Anonymous s -> Anonymous (after_failure method target json s attempt).
Proof.
  intros (Hc & Ht & Hr & Hh & Hq). unfold after_failure, Anonymous.
  cbn [self trace set_session user password _token _refresh_token session].
  repeat split; try assumption.
  - intros sess Hsess. injection Hsess as <-. cbn.
    unfold fresh_headers. rewrite Ht. reflexivity.
  - intros rq Hin. rewrite requests_app in Hin. apply in_app_or in Hin.
    destruct Hin as [Hin|Hin]; [apply Hq; exact Hin|].
    unfold failure_events in Hin.
    destruct (session (self s)) as [sess|] eqn:Hs; [|destruct Hin].
    cbn in Hin. destruct Hin as [<-|[]]. cbn. apply (Hh sess eq_refl).
Qed.

(** The retry loop of an anonymous client ends, and leaves it anonymous. *)
Lemma loop_anonymous post_rec attempts :
  forall method target json last s,
    Anonymous s ->
    match request_loop server post_rec attempts method target json last s with
    | Returns _ s' => Anonymous s'
    | Raises _ s' => Anonymous s'
    | Diverges => False
    end.
Proof.
  induction attempts as [|a rest IH]; intros method target json last s Hanon.
  - destruct last; exact Hanon.
  - destruct (session (self s)) as [sess|] eqn:Hs.
    2:{ cbn [request_loop]. unfold session_request. rewrite Hs. exact Hanon. }
    assert (Hno403 : forall r,
      on_http_error post_rec r (after_request method target json s) =
      Returns (Some r) (after_request method target json s)).
    { intros r. rewrite on_http_error_spec.
      destruct (anonymous_after_request method target json s Hanon)
        as (_ & _ & Hr & _).
      rewrite Hr. cbn [truthy]. rewrite andb_false_r. reflexivity. }
    destruct (server (requests_made s) (mkRequest method target (headers sess) json))
      as [r|e] eqn:Hrep.
    + destruct (is_http_error r) eqn:Hr.
      * rewrite (loop_http_error_step server post_rec a rest method target json
                   last s sess r Hs Hrep Hr), Hno403.
        apply anonymous_after_request, Hanon.
      * rewrite (loop_success_step server post_rec a rest method target json
                   last s sess r Hs Hrep Hr).
        apply anonymous_after_request, Hanon.
    + destruct (is_transport_error e) eqn:He.
      * rewrite (loop_transport_step server post_rec a rest method target json
                   last s sess e Hs Hrep He).
        apply IH, anonymous_after_failure, Hanon.
      * rewrite (loop_fault_step post_rec a rest method target json
                   last s sess e Hs Hrep He).
        destruct e; try (apply anonymous_after_request, Hanon).
        rewrite Hno403. apply anonymous_after_request, Hanon.
Qed.

Lemma make_request_anonymous depth method uri json s :
  Anonymous s ->
  match _make_request server depth method uri json s with
  | Returns _ s' => Anonymous s'
  | Raises _ s' => Anonymous s'
  | Diverges => False
  end.
Proof.
  intros Hanon. destruct (session (self s)) as [sess|] eqn:Hs.
  - rewrite (make_request_unfold server depth method uri json s sess Hs).
    apply loop_anonymous, Hanon.
  - destruct depth; simpl; rewrite Hs; exact Hanon.
Qed.

(** [connect] without credentials: a new session and nothing else. *)
Lemma connect_anonymous depth s :
  truthy (user (self s)) && truthy (password (self s)) = false ->
  connect server depth s =
  Returns tt (mkState (set_session (self s) (Some (mkSession (sessions_created s) [])))
                      (requests_made s) (S (sessions_created s))
                      (trace s ++ [EvSession (sessions_created s)])).
Proof.
  intros Hc. unfold connect, bind, new_session, get_self, set_self.
  cbn [self requests_made sessions_created trace].
  rewrite Hc. reflexivity.
Qed.

Lemma run_call_anonymous depth c s :
  Anonymous s ->
  match run_call server depth c s with
  | Returns _ s' => Anonymous s'
  | Raises _ s' => Anonymous s'
  | Diverges => False
  end.
Proof.
  intros Hanon. destruct c as [|uri|uri json]; cbn [run_call].
  - destruct Hanon as (Hc & Ht & Hr & Hh & Hq).
    rewrite (connect_anonymous depth s Hc).
    repeat split; cbn [self trace set_session user password _token
                       _refresh_token session]; try assumption.
    + intros sess Hsess. injection Hsess as <-. reflexivity.
    + intros rq Hin. rewrite requests_app in Hin. cbn in Hin.
      rewrite app_nil_r in Hin. apply Hq, Hin.
  - unfold bind, get.
    pose proof (make_request_anonymous depth "get" uri None s Hanon) as H.
    destruct (_make_request server depth "get" uri None s); exact H.
  - unfold bind, post.
    pose proof (make_request_anonymous depth "post" uri json s Hanon) as H.
    destruct (_make_request server depth "post" uri json s); exact H.
Qed.

Lemma run_calls_anonymous depth calls :
  forall s, Anonymous s ->
    exists s', run_calls server depth calls s = Some s' /\ Anonymous s'.
Proof.
  induction calls as [|c calls IH]; intros s Hanon.
  - exists s. split; [reflexivity | exact Hanon].
  - cbn [run_calls].
    pose proof (run_call_anonymous depth c s Hanon) as H.
    destruct (run_call server depth c s) as [v s1|e s1|]; [apply IH, H | apply IH, H | destruct H].
Qed.

End AnonymousFacts.

(** C10: on a client built without a user or without a password,
    whatever was called before, [connect] opens a new session and
    returns: no request is sent, [_token] and [_refresh_token] are
    [None], the session has no Authorization header; and whatever is
    called afterwards, every request the client ever sends goes out
    without an Authorization header. *)
Theorem connect_without_credentials_stays_unauthenticated
    server depth u usr pwd before after :
  truthy usr && truthy pwd = false ->
  exists s0 s1 s2,
    run_calls server depth before (__init__ u usr pwd) = Some s0
    /\ connect server depth s0 = Returns tt s1
    /\ session (self s1) = Some (mkSession (sessions_created s0) [])
    /\ trace s1 = trace s0 ++ [EvSession (sessions_created s0)]
    /\ requests_made s1 = requests_made s0
    /\ _token (self s1) = None
    /\ _refresh_token (self s1) = None
    /\ run_calls server depth after s1 = Some s2
    /\ (forall rq, In rq (requests (trace s2)) ->
          dict_get (rq_headers rq) "Authorization" = None).
Proof.
  intros Hc.
  assert (Hinit : Anonymous (__init__ u usr pwd)).
  { repeat split; cbn; try assumption; try discriminate. intros rq []. }
  destruct (run_calls_anonymous server depth before _ Hinit) as (s0 & Hrun0 & Hanon0).
  pose proof (run_call_anonymous server depth CallConnect s0 Hanon0) as Hanon1.
  cbn [run_call] in Hanon1.
  destruct Hanon0 as (Hc0 & Ht0 & Hr0 & Hh0 & Hq0).
  rewrite (connect_anonymous server depth s0 Hc0) in Hanon1.
  destruct (run_calls_anonymous server depth after _ Hanon1) as (s2 & Hrun2 & Hanon2).
  eexists s0, _, s2.
  split; [exact Hrun0|].
  split; [apply (connect_anonymous server depth s0 Hc0)|].
  cbn [self trace requests_made set_session session _token _refresh_token].
  repeat split; try assumption.
  intros rq Hin. destruct Hanon2 as (_ & _ & _ & _ & Hq2).
  rewrite (Hq2 rq Hin). reflexivity.
Qed.

Lemma connect_without_credentials_witness :
  exists s1,
    connect expiring_server 1 (__init__ "http://localhost:8000" (Some "admin") None)
    = Returns tt s1
    /\ _token (self s1) = None
    /\ requests (trace s1) = [].
Proof.
  destruct (connect_without_credentials_stays_unauthenticated expiring_server 1
    "http://localhost:8000" (Some "admin") None [] [] eq_refl)
    as (s0 & s1 & s2 & H0 & H1 & _ & H3 & _ & H5 & _).
  injection H0 as <-.
  exists s1. split; [exact H1|]. split; [exact H5|].
  rewrite H3. reflexivity.
Defined.

(** Without a session nothing is sent. *)
Lemma request_before_connect_facts server depth method uri json s :
  session (self s) = None ->
  _make_request server depth method uri json s =
  Raises (ValueError "Session not connected. Call connect() first.") s.
Proof.
  intros Hs. destruct depth; simpl; rewrite Hs; reflexivity.
Qed.

(* ------------------------------------------------------------------ *)
(** ** The token operations, step by step *)

Section TokenFacts.

Variable server : nat -> Request -> Reply.

(** [_refresh_auth_token] by the outcome of its nested [post]. *)
Lemma refresh_spec post_rec s :
  _refresh_auth_token post_rec s =
  match post_rec "token/refresh/" (Some [("refresh", _refresh_token (self s))])
                 (logged "Refreshing token..." s) with
  | Returns None s1 => Raises AttributeError s1
  | Returns (Some r) s1 =>
      if is_http_error r then Raises (HTTPError r) s1
      else match body r with
           | NotJson => Raises JSONDecodeError s1
           | JsonObject d =>
               match session (self s1) with
               | None => Raises AttributeError (with_token (dict_get d "access") s1)
               | Some _ => Returns tt (with_token (dict_get d "access") s1)
               end
           end
  | Raises e s1 => Raises e s1
  | Diverges => Diverges
  end.
Proof.
  unfold _refresh_auth_token, bind, emit, get_self. fold (logged "Refreshing token..." s).
  cbn [self logged].
  destruct (post_rec "token/refresh/" (Some [("refresh", _refresh_token (self s))])
              (logged "Refreshing token..." s)) as [[r|] s1|e s1|]; try reflexivity.
  cbn [deref ret]. unfold raise_for_status.
  destruct (is_http_error r); [reflexivity|]. cbn [ret].
  unfold json. destruct (body r) as [|d]; [reflexivity|]. cbn [ret].
  unfold set_self, update_authorization, bind, get_self, with_token.
  cbn [self requests_made sessions_created trace set_token session].
  destruct (session (self s1)) as [sess|]; reflexivity.
Qed.

(** [connect] by the outcome of its [post]. *)
Lemma connect_spec depth s :
  connect server depth s =
  if negb (truthy (user (self s)) && truthy (password (self s)))
  then Returns tt (opened s)
  else
    match post server depth "token/" (Some (credentials (self s))) (opened s) with
    | Returns None s1 => Raises AttributeError s1
    | Returns (Some r) s1 =>
        if is_http_error r then Raises (HTTPError r) s1
        else match body r with
             | NotJson => Raises JSONDecodeError s1
             | JsonObject d =>
                 match session (self s1) with
                 | None =>
                     Raises AttributeError
                       (with_token (dict_get d "access")
                          (with_refresh_token (dict_get d "refresh") s1))
                 | Some _ =>
                     Returns tt
                       (with_token (dict_get d "access")
                          (with_refresh_token (dict_get d "refresh") s1))
                 end
             end
    | Raises e s1 => Raises e s1
    | Diverges => Diverges
    end.
Proof.
  unfold connect, bind, new_session, get_self, set_self, opened, credentials.
  cbn [self requests_made sessions_created trace set_session user password].
  destruct (negb (truthy (user (self s)) && truthy (password (self s))));
    [reflexivity|].
  unfold Dict.
  match goal with
  | |- context [post server depth ?a ?b ?c] =>
      destruct (post server depth a b c) as [[r|] s1|e s1|]
  end; try reflexivity.
  cbn [deref ret]. unfold raise_for_status.
  destruct (is_http_error r); [reflexivity|]. cbn [ret].
  unfold json. destruct (body r) as [|d]; [reflexivity|]. cbn [ret].
  unfold update_authorization, bind, get_self, with_token, with_refresh_token.
  cbn [self requests_made sessions_created trace set_token set_refresh_token
       session url user password _token _refresh_token].
  destruct (session (self s1)) as [sess|]; reflexivity.
Qed.

Lemma is_http_error_403 r : status_code r = 403%Z -> is_http_error r = true.
Proof. intros H. unfold is_http_error. rewrite H. reflexivity. Qed.

Lemma after_request_self method target json s :
  self (after_request method target json s) = self s.
Proof. unfold after_request. destruct (session (self s)); reflexivity. Qed.

Lemma after_request_connected method target json s sess :
  session (self s) = Some sess ->
  after_request method target json s =
  mkState (self s) (S (requests_made s)) (sessions_created s)
          (trace s ++ [EvRequest (sid sess)
                         (mkRequest method target (headers sess) json)]).
Proof. intros Hs. unfold after_request. rewrite Hs. reflexivity. Qed.

(** One attempt, by what [session.request] does. *)
Lemma loop_step post_rec attempt rest method target json last s sess :
  session (self s) = Some sess ->
  request_loop server post_rec (attempt :: rest) method target json last s =
  match server (requests_made s) (mkRequest method target (headers sess) json) with
  | Answer r =>
      if is_http_error r
      then on_http_error post_rec r (after_request method target json s)
      else Returns (Some r) (after_request method target json s)
  | Fault e =>
      if is_transport_error e
      then request_loop server post_rec rest method target json (Some e)
             (after_failure method target json s attempt)
      else match e with
           | HTTPError r => on_http_error post_rec r (after_request method target json s)
           | _ => Raises e (after_request method target json s)
           end
  end.
Proof.
  intros Hs.
  destruct (server (requests_made s) (mkRequest method target (headers sess) json))
    as [r|e] eqn:Hrep.
  - destruct (is_http_error r) eqn:Hr.
    + apply (loop_http_error_step server post_rec attempt rest method target json
               last s sess r Hs Hrep Hr).
    + apply (loop_success_step server post_rec attempt rest method target json
               last s sess r Hs Hrep Hr).
  - destruct (is_transport_error e) eqn:He.
    + apply (loop_transport_step server post_rec attempt rest method target json
               last s sess e Hs Hrep He).
    + apply (loop_fault_step server post_rec attempt rest method target json
               last s sess e Hs Hrep He).
Qed.

End TokenFacts.

(* ------------------------------------------------------------------ *)
(** ** Properties every request keeps *)

Section Preservation.

Variable server : nat -> Request -> Reply.
Variable I : State -> Prop.

Hypothesis I_connected : forall s, I s -> session (self s) <> None.
Hypothesis I_logged : forall s msg, I s -> I (logged msg s).
Hypothesis I_request : forall s method target json,
  I s -> I (after_request method target json s).
Hypothesis I_failure : forall s method target json attempt,
  I s -> I (after_failure method target json s attempt).
Hypothesis I_token : forall s tok, I s -> I (with_token tok s).

Lemma refresh_kept post_rec :
  (forall uri json s, I s -> kept I (post_rec uri json s)) ->
  forall s, I s -> kept I (_refresh_auth_token post_rec s).
Proof.
  intros Hpost s Hs. rewrite refresh_spec.
  pose proof (Hpost "token/refresh/" (Some [("refresh", _refresh_token (self s))])
                (logged "Refreshing token..." s) (I_logged s _ Hs)) as H.
  destruct (post_rec "token/refresh/" (Some [("refresh", _refresh_token (self s))])
              (logged "Refreshing token..." s)) as [[r|] s1|e s1|];
    cbn [kept] in *; try exact H.
  destruct (is_http_error r); [exact H|].
  destruct (body r) as [|d]; [exact H|].
  destruct (session (self s1)); cbn [kept]; apply I_token, H.
Qed.

Lemma on_http_error_kept post_rec r :
  (forall uri json s, I s -> kept I (post_rec uri json s)) ->
  forall s, I s -> kept I (on_http_error post_rec r s).
Proof.
  intros Hpost s Hs. rewrite on_http_error_spec.
  destruct ((status_code r =? 403)%Z && truthy (_refresh_token (self s)));
    [|exact Hs].
  pose proof (refresh_kept post_rec Hpost s Hs) as H.
  destruct (_refresh_auth_token post_rec s); exact H.
Qed.

Lemma loop_kept post_rec :
  (forall uri json s, I s -> kept I (post_rec uri json s)) ->
  forall attempts method target json last s,
    I s -> kept I (request_loop server post_rec attempts method target json last s).
Proof.
  intros Hpost attempts.
  induction attempts as [|a rest IH]; intros method target json last s Hs.
  - destruct last; exact Hs.
  - destruct (session (self s)) as [sess|] eqn:Hsess;
      [|exfalso; exact (I_connected s Hs Hsess)].
    rewrite (loop_step server post_rec a rest method target json last s sess Hsess).
    destruct (server (requests_made s) (mkRequest method target (headers sess) json))
      as [r|e].
    + destruct (is_http_error r).
      * apply on_http_error_kept; [exact Hpost | apply I_request, Hs].
      * apply I_request, Hs.
    + destruct (is_transport_error e).
      * apply IH, I_failure, Hs.
      * destruct e; try (apply I_request, Hs).
        apply on_http_error_kept; [exact Hpost | apply I_request, Hs].
Qed.

Lemma make_request_kept depth :
  forall method uri json s,
    I s -> kept I (_make_request server depth method uri json s).
Proof.
  induction depth as [|d IH]; intros method uri json s Hs;
    (destruct (session (self s)) as [sess|] eqn:Hsess;
      [|exfalso; exact (I_connected s Hs Hsess)]);
    rewrite (make_request_unfold server _ method uri json s sess Hsess);
    apply loop_kept; try exact Hs.
  - intros u j s0 _. exact Logic.I.
  - intros u j s0 Hs0. apply IH, Hs0.
Qed.

End Preservation.

(** X1: a request never touches what the client was built with, nor the
    refresh token: whatever the server does, however the call ends,
    [url], [user], [password] and [_refresh_token] are what they were,
    and a connected client stays connected. *)
Theorem request_keeps_identity server depth method uri json s :
  kept (fun s' =>
          url (self s') = url (self s)
          /\ user (self s') = user (self s)
          /\ password (self s') = password (self s)
          /\ _refresh_token (self s') = _refresh_token (self s)
          /\ (session (self s) <> None -> session (self s') <> None))
       (_make_request server depth method uri json s).
Proof.
  destruct (session (self s)) as [sess|] eqn:Hsess.
  - pose proof (make_request_kept server
      (fun s' => url (self s') = url (self s)
                 /\ user (self s') = user (self s)
                 /\ password (self s') = password (self s)
                 /\ _refresh_token (self s') = _refresh_token (self s)
                 /\ session (self s') <> None)) as H.
    assert (Hk : kept (fun s' => url (self s') = url (self s)
                 /\ user (self s') = user (self s)
                 /\ password (self s') = password (self s)
                 /\ _refresh_token (self s') = _refresh_token (self s)
                 /\ session (self s') <> None)
                 (_make_request server depth method uri json s)).
    { apply H.
      - intros s0 (_ & _ & _ & _ & Hc). exact Hc.
      - intros s0 msg H0. exact H0.
      - intros s0 m t j H0. rewrite after_request_self. exact H0.
      - intros s0 m t j a (H1 & H2 & H3 & H4 & H5).
        cbn [after_failure self set_session url user password _refresh_token session].
        repeat split; try assumption. discriminate.
      - intros s0 tok (H1 & H2 & H3 & H4 & H5). unfold with_token. cbn [self].
        destruct (session (self s0)) as [sess0|]; [|contradiction].
        cbn [set_session set_token url user password _refresh_token session].
        repeat split; try assumption. discriminate.
      - rewrite Hsess. repeat split. discriminate. }
    destruct (_make_request server depth method uri json s); cbn [kept] in *;
      try exact Logic.I; destruct Hk as (H1 & H2 & H3 & H4 & H5);
      repeat split; try assumption; intros _; exact H5.
  - rewrite (request_before_connect_facts server depth method uri json s Hsess).
    cbn [kept]. repeat split. intros H. congruence.
Qed.

(* ------------------------------------------------------------------ *)
(** ** The Authorization header follows the token *)

Section Authorization.

Variable server : nat -> Request -> Reply.

Lemma coherent_bearer s sess :
  coherent s -> session (self s) = Some sess -> bearer_headers (headers sess).
Proof.
  intros Hc Hs. destruct (Hc sess Hs) as [H|H]; [left; exact H|].
  right. exists (_token (self s)). exact H.
Qed.

Lemma dict_update_bearer h v :
  bearer_headers h -> dict_update h "Authorization" v = [("Authorization", v)].
Proof.
  intros [->|[tok ->]]; reflexivity.
Qed.

Lemma well_authorized_logged s msg : well_authorized s -> well_authorized (logged msg s).
Proof.
  intros [Hc Hq]. split; [exact Hc|].
  intros rq Hin. cbn [logged trace] in Hin. rewrite requests_app in Hin.
  cbn in Hin. rewrite app_nil_r in Hin. apply Hq, Hin.
Qed.

Lemma well_authorized_request s method target json :
  well_authorized s -> well_authorized (after_request method target json s).
Proof.
  intros [Hc Hq]. unfold after_request.
  destruct (session (self s)) as [sess|] eqn:Hs; [|split; assumption].
  split.
  - intros sess0 H0. cbn [self] in *. apply Hc, H0.
  - intros rq Hin. cbn [trace] in Hin. rewrite requests_app in Hin.
    apply in_app_or in Hin. destruct Hin as [Hin|Hin]; [apply Hq, Hin|].
    cbn in Hin. destruct Hin as [<-|[]]. cbn [rq_headers].
    apply (coherent_bearer s sess Hc Hs).
Qed.

Lemma well_authorized_failure s method target json attempt :
  well_authorized s -> well_authorized (after_failure method target json s attempt).
Proof.
  intros [Hc Hq]. split.
  - intros sess0 H0.
    cbn [after_failure self set_session session _token] in *.
    injection H0 as <-. cbn [headers]. unfold fresh_headers.
    destruct (truthy (_token (self s))); [right|left]; reflexivity.
  - intros rq Hin. cbn [after_failure trace] in Hin. rewrite requests_app in Hin.
    apply in_app_or in Hin. destruct Hin as [Hin|Hin]; [apply Hq, Hin|].
    unfold failure_events in Hin.
    destruct (session (self s)) as [sess|] eqn:Hs; [|destruct Hin].
    cbn in Hin. destruct Hin as [<-|[]]. cbn [rq_headers].
    apply (coherent_bearer s sess Hc Hs).
Qed.

Lemma well_authorized_token s tok :
  well_authorized s -> well_authorized (with_token tok s).
Proof.
  intros [Hc Hq]. split; [|exact Hq].
  intros sess0 H0. unfold with_token in H0. cbn [self] in H0.
  unfold with_token. cbn [self].
  destruct (session (self s)) as [sess|] eqn:Hs.
  - cbn [set_session set_token session _token] in *. injection H0 as <-.
    cbn [headers]. right.
    apply dict_update_bearer, (coherent_bearer s sess Hc Hs).
  - cbn [set_token session] in H0. congruence.
Qed.

Lemma well_authorized_refresh_token s tok :
  well_authorized s -> well_authorized (with_refresh_token tok s).
Proof. intros H. exact H. Qed.

Lemma well_authorized_opened s : well_authorized s -> well_authorized (opened s).
Proof.
  intros [Hc Hq]. split.
  - intros sess0 H0. cbn [opened self set_session session] in H0.
    injection H0 as <-. left. reflexivity.
  - intros rq Hin. cbn [opened trace] in Hin. rewrite requests_app in Hin.
    cbn in Hin. rewrite app_nil_r in Hin. apply Hq, Hin.
Qed.

Lemma make_request_well_authorized depth method uri json s :
  well_authorized s ->
  kept well_authorized (_make_request server depth method uri json s).
Proof.
  intros Hw. destruct (session (self s)) as [sess|] eqn:Hs.
  - pose proof (make_request_kept server
      (fun s' => well_authorized s' /\ session (self s') <> None)) as H.
    assert (Hk : kept (fun s' => well_authorized s' /\ session (self s') <> None)
                      (_make_request server depth method uri json s)).
    { apply H.
      - intros s0 [_ Hc]. exact Hc.
      - intros s0 msg [H0 H1]. split; [apply well_authorized_logged, H0 | exact H1].
      - intros s0 m t j [H0 H1].
        split; [apply well_authorized_request, H0|].
        rewrite after_request_self. exact H1.
      - intros s0 m t j a [H0 H1].
        split; [apply well_authorized_failure, H0 | discriminate].
      - intros s0 tok [H0 H1]. split; [apply well_authorized_token, H0|].
        unfold with_token. cbn [self].
        destruct (session (self s0)); [discriminate | contradiction].
      - split; [exact Hw | congruence]. }
    destruct (_make_request server depth method uri json s); cbn [kept] in *;
      try exact Logic.I; apply Hk.
  - rewrite (request_before_connect_facts server depth method uri json s Hs).
    exact Hw.
Qed.

Lemma connect_well_authorized depth s :
  well_authorized s -> kept well_authorized (connect server depth s).
Proof.
  intros Hw. rewrite connect_spec.
  destruct (negb (truthy (user (self s)) && truthy (password (self s))));
    [apply well_authorized_opened, Hw|].
  pose proof (make_request_well_authorized depth "post" "token/"
                (Some (credentials (self s))) (opened s)
                (well_authorized_opened s Hw)) as H.
  fold (post server depth "token/" (Some (credentials (self s))) (opened s)) in H.
  destruct (post server depth "token/" (Some (credentials (self s))) (opened s))
    as [[r|] s1|e s1|]; cbn [kept] in *; try exact H.
  destruct (is_http_error r); [exact H|].
  destruct (body r) as [|d]; [exact H|].
  destruct (session (self s1)); cbn [kept];
    apply well_authorized_token, well_authorized_refresh_token, H.
Qed.

Lemma run_call_well_authorized depth c s :
  well_authorized s -> kept well_authorized (run_call server depth c s).
Proof.
  intros Hw. destruct c as [|uri|uri json]; cbn [run_call].
  - apply connect_well_authorized, Hw.
  - unfold bind, get.
    pose proof (make_request_well_authorized depth "get" uri None s Hw) as H.
    destruct (_make_request server depth "get" uri None s); exact H.
  - unfold bind, post.
    pose proof (make_request_well_authorized depth "post" uri json s Hw) as H.
    destruct (_make_request server depth "post" uri json s); exact H.
Qed.

Lemma run_calls_well_authorized depth calls :
  forall s s', well_authorized s ->
    run_calls server depth calls s = Some s' -> well_authorized s'.
Proof.
  induction calls as [|c calls IH]; intros s s' Hw Hrun.
  - injection Hrun as <-. exact Hw.
  - cbn [run_calls] in Hrun.
    pose proof (run_call_well_authorized depth c s Hw) as H.
    destruct (run_call server depth c s) as [v s1|e s1|];
      [apply (IH s1 s' H Hrun) | apply (IH s1 s' H Hrun) | discriminate].
Qed.

End Authorization.

(** X2: the Authorization header follows the token.  After any calls of
    [connect], [get] and [post] on a new client, against any server, the
    session holds no header or exactly ["Bearer " + _token], and every
    request sent went out with no header or with exactly one bearer
    header. *)
Theorem authorization_header_follows_token server depth u usr pwd calls s :
  run_calls server depth calls (__init__ u usr pwd) = Some s ->
  (forall sess, session (self s) = Some sess ->
     headers sess = []
     \/ headers sess = [("Authorization", Some ("Bearer " ++ fstr (_token (self s)))%string)])
  /\ (forall rq, In rq (requests (trace s)) ->
        rq_headers rq = []
        \/ exists tok,
             rq_headers rq = [("Authorization", Some ("Bearer " ++ fstr tok)%string)]).
Proof.
  intros Hrun.
  assert (Hinit : well_authorized (__init__ u usr pwd)).
  { split; [intros sess H; discriminate H | intros rq []]. }
  exact (run_calls_well_authorized server depth calls _ _ Hinit Hrun).
Qed.

Lemma authorization_header_witness :
  exists s,
    run_calls granting_server 1 [CallConnect; CallGet "events/"] admin_client = Some s
    /\ (forall rq, In rq (requests (trace s)) ->
          rq_headers rq = []
          \/ exists tok,
               rq_headers rq = [("Authorization", Some ("Bearer " ++ fstr tok)%string)]).
Proof.
  eexists. split; [vm_compute; reflexivity|].
  exact (proj2 (authorization_header_follows_token granting_server 1
    "http://localhost:8000" (Some "admin") (Some "secret")
    [CallConnect; CallGet "events/"] _ eq_refl)).
Defined.

(* ------------------------------------------------------------------ *)
(** ** How a request ends *)

Lemma on_http_error_never_none post_rec r s s' :
  on_http_error post_rec r s <> Returns None s'.
Proof.
  rewrite on_http_error_spec.
  destruct ((status_code r =? 403)%Z && truthy (_refresh_token (self s)));
    [destruct (_refresh_auth_token post_rec s)|]; discriminate.
Qed.

Lemma loop_never_none server post_rec attempts :
  forall method target json last s s',
    attempts <> [] \/ last <> None ->
    request_loop server post_rec attempts method target json last s <> Returns None s'.
Proof.
  induction attempts as [|a rest IH]; intros method target json last s s' Hne.
  - destruct last as [e|]; [discriminate|]. destruct Hne as [H|H]; contradiction.
  - destruct (session (self s)) as [sess|] eqn:Hs.
    + rewrite (loop_step server post_rec a rest method target json last s sess Hs).
      destruct (server (requests_made s) (mkRequest method target (headers sess) json))
        as [r|e].
      * destruct (is_http_error r); [apply on_http_error_never_none | discriminate].
      * destruct (is_transport_error e).
        -- apply IH. right. discriminate.
        -- destruct e; try discriminate. apply on_http_error_never_none.
    + cbn [request_loop]. unfold session_request. rewrite Hs. discriminate.
Qed.

(** X3: [get] and [post] never return [None]: whatever the server does, a
    call that ends returns a response or raises. *)
Theorem request_never_returns_None server depth method uri json s s' :
  _make_request server depth method uri json s <> Returns None s'
  /\ get server depth uri s <> Returns None s'
  /\ post server depth uri json s <> Returns None s'.
Proof.
  assert (H : forall m j, _make_request server depth m uri j s <> Returns None s').
  { intros m j. destruct (session (self s)) as [sess|] eqn:Hs.
    - rewrite (make_request_unfold server depth m uri j s sess Hs).
      apply loop_never_none. left. discriminate.
    - rewrite (request_before_connect_facts server depth m uri j s Hs).
      discriminate. }
  unfold get, post. repeat split; apply H.
Qed.

Lemma after_failures_session method target json s sess n :
  session (self s) = Some sess ->
  exists cur,
    session (self (after_failures method target json s (seq 0 n))) = Some cur
    /\ requests_made (after_failures method target json s (seq 0 n)) = requests_made s + n.
Proof.
  intros Hs.
  destruct (after_failures_spec method target json (seq 0 n) s sess Hs)
    as (H1 & _ & _ & _ & _ & _ & _ & H8).
  rewrite length_seq in H1. cbn zeta in H8.
  destruct (seq 0 n); eexists; split; try exact H8; exact H1.
Qed.

Lemma seq_head n m : n < m -> seq n (m - n) = n :: seq (S n) (m - S n).
Proof.
  intros H. replace (m - n) with (S (m - S n)) by lia. reflexivity.
Qed.

(** X4: recovery.  When the first [n < MAX_RETRIES] attempts fail in
    transport and the next one is answered without an error status,
    the call returns that response after [n + 1] requests, having slept
    1, 2, ..., 2^(n-1) and nothing more. *)
Theorem request_recovers_after_transport_failures
    server depth method uri json s sess errs n r :
  session (self s) = Some sess ->
  n < MAX_RETRIES ->
  (forall i rq, i < n ->
     server (requests_made s + i) rq = Fault (errs i)
     /\ is_transport_error (errs i) = true) ->
  (forall rq, server (requests_made s + n) rq = Answer r) ->
  is_http_error r = false ->
  let target := (url (self s) ++ "/" ++ uri)%string in
  let s' := after_request method target json
              (after_failures method target json s (seq 0 n)) in
  _make_request server depth method uri json s = Returns (Some r) s'
  /\ requests_made s' = requests_made s + n + 1
  /\ sleeps (trace s') = sleeps (trace s) ++ map (fun attempt => 2 ^ attempt) (seq 0 n).
Proof.
  intros Hs Hn Hall Hok Hr target s'.
  destruct (after_failures_session method target json s sess n Hs)
    as (cur & Hcur & Hreq).
  destruct (after_failures_spec method target json (seq 0 n) s sess Hs)
    as (_ & _ & _ & _ & _ & Hsl & _).
  cbn zeta in Hsl.
  split; [|split].
  - rewrite (make_request_after_failures server depth method uri json s sess errs n
               Hs (Nat.lt_le_incl _ _ Hn) Hall).
    rewrite (seq_head n MAX_RETRIES Hn).
    apply (loop_success_step server _ n _ method target json _ _ cur r Hcur);
      [|exact Hr].
    fold target. rewrite Hreq. apply Hok.
  - unfold s'. rewrite (after_request_connected _ _ _ _ cur Hcur).
    cbn [requests_made]. rewrite Hreq. lia.
  - unfold s'. rewrite (after_request_connected _ _ _ _ cur Hcur).
    cbn [trace]. rewrite sleeps_app, Hsl. cbn [sleeps]. apply app_nil_r.
Qed.

Lemma request_recovers_witness :
  exists s',
    get recovering_server 0 "events/" anonymous_client = Returns (Some ok_events) s'
    /\ requests_made s' = 3
    /\ sleeps (trace s') = [1; 2].
Proof.
  pose proof (request_recovers_after_transport_failures recovering_server 0 "get"
    "events/" None anonymous_client (mkSession 0 [])
    (fun _ => ConnectionError "connection reset") 2 ok_events eq_refl) as H.
  cbv zeta in H.
  destruct H as (H1 & H2 & H3).
  - unfold MAX_RETRIES. lia.
  - intros i rq Hi. do 2 (destruct i as [|i]; [split; reflexivity|]). lia.
  - intros rq. reflexivity.
  - reflexivity.
  - eexists. split; [exact H1|]. split; [exact H2 | exact H3].
Defined.

(** X5: an exception of [session.request] that is neither an HTTP error
    nor a connection or timeout error is not retried: after [n]
    transport failures, the attempt that raises it ends the call with
    that exception, without reconnecting or sleeping again. *)
Theorem other_exception_is_raised_at_once
    server depth method uri json s sess errs n e :
  session (self s) = Some sess ->
  n < MAX_RETRIES ->
  (forall i rq, i < n ->
     server (requests_made s + i) rq = Fault (errs i)
     /\ is_transport_error (errs i) = true) ->
  (forall rq, server (requests_made s + n) rq = Fault e) ->
  is_transport_error e = false ->
  (forall r, e <> HTTPError r) ->
  let target := (url (self s) ++ "/" ++ uri)%string in
  let s' := after_request method target json
              (after_failures method target json s (seq 0 n)) in
  _make_request server depth method uri json s = Raises e s'
  /\ requests_made s' = requests_made s + n + 1
  /\ sessions_created s' = sessions_created s + n
  /\ sleeps (trace s') = sleeps (trace s) ++ map (fun attempt => 2 ^ attempt) (seq 0 n).
Proof.
  intros Hs Hn Hall Hbad He Hnot target s'.
  destruct (after_failures_session method target json s sess n Hs)
    as (cur & Hcur & Hreq).
  destruct (after_failures_spec method target json (seq 0 n) s sess Hs)
    as (_ & Hsc & _ & _ & _ & Hsl & _).
  cbn zeta in Hsl. rewrite length_seq in Hsc.
  split; [|split; [|split]].
  - rewrite (make_request_after_failures server depth method uri json s sess errs n
               Hs (Nat.lt_le_incl _ _ Hn) Hall).
    rewrite (seq_head n MAX_RETRIES Hn).
    rewrite (loop_fault_step server _ n _ method target json _ _ cur e Hcur);
      [|fold target; rewrite Hreq; apply Hbad | exact He].
    destruct e; try reflexivity. exfalso. apply (Hnot response). reflexivity.
  - unfold s'. rewrite (after_request_connected _ _ _ _ cur Hcur).
    cbn [requests_made]. rewrite Hreq. lia.
  - unfold s'. rewrite (after_request_connected _ _ _ _ cur Hcur).
    cbn [sessions_created]. exact Hsc.
  - unfold s'. rewrite (after_request_connected _ _ _ _ cur Hcur).
    cbn [trace]. rewrite sleeps_app, Hsl. cbn [sleeps]. apply app_nil_r.
Qed.

Lemma other_exception_witness :
  exists s',
    get looping_server 0 "events/" anonymous_client
    = Raises (OtherError "too many redirects") s'
    /\ requests_made s' = 1.
Proof.
  pose proof (other_exception_is_raised_at_once looping_server 0 "get"
    "events/" None anonymous_client (mkSession 0 [])
    (fun _ => ConnectionError "unused") 0 (OtherError "too many redirects")
    eq_refl) as H.
  cbv zeta in H.
  destruct H as (H1 & H2 & _).
  - unfold MAX_RETRIES. lia.
  - intros i rq Hi. lia.
  - intros rq. reflexivity.
  - reflexivity.
  - intros r. discriminate.
  - eexists. split; [exact H1 | exact H2].
Defined.

(* ------------------------------------------------------------------ *)
(** ** [connect] with credentials *)

Lemma dict_get_update_same d key v : dict_get (dict_update d key v) key = v.
Proof.
  induction d as [|[k v0] d IH]; cbn [dict_update dict_get].
  - rewrite String.eqb_refl. reflexivity.
  - destruct (String.eqb k key) eqn:Hk; cbn [dict_get]; rewrite Hk;
      [reflexivity | exact IH].
Qed.

Lemma dict_get_update_other d key key' v :
  key <> key' -> dict_get (dict_update d key v) key' = dict_get d key'.
Proof.
  intros Hne. induction d as [|[k v0] d IH]; cbn [dict_update dict_get].
  - destruct (String.eqb_spec key key'); [contradiction | reflexivity].
  - destruct (String.eqb_spec k key) as [->|Hk]; cbn [dict_get].
    + destruct (String.eqb_spec key key'); [contradiction | reflexivity].
    + destruct (String.eqb k key'); [reflexivity | exact IH].
Qed.

(** The token request of [connect], sent on the session just opened. *)
Lemma connect_post_step server depth s :
  post server depth "token/" (Some (credentials (self s))) (opened s) =
  request_loop server (post_frame server depth) (seq 0 MAX_RETRIES) "post"
    (url (self s) ++ "/" ++ "token/")%string (Some (credentials (self s))) None
    (opened s).
Proof.
  unfold post.
  apply (make_request_unfold server depth "post" "token/" _ (opened s)
           (mkSession (sessions_created s) [])).
  reflexivity.
Qed.

(** X6: on a client with a user and a password, when the first token
    request of [connect] (the POST of the credentials to [url/token/],
    on the session just opened and without an Authorization header) is
    answered without an error status by a JSON object, [connect]
    returns after that one request: it stores the values under
    ["access"] and ["refresh"] ([None] for a missing key) and sets the
    header to the bearer of the access value, which reads
    ["Bearer None"] when the key is missing. *)
Theorem connect_with_credentials_stores_tokens server depth s r d :
  truthy (user (self s)) && truthy (password (self s)) = true ->
  server (requests_made s)
    (mkRequest "post" (url (self s) ++ "/" ++ "token/")%string []
       (Some [("username", user (self s)); ("password", password (self s))]))
  = Answer r ->
  is_http_error r = false ->
  body r = JsonObject d ->
  exists s',
    connect server depth s = Returns tt s'
    /\ _token (self s') = dict_get d "access"
    /\ _refresh_token (self s') = dict_get d "refresh"
    /\ session (self s') =
       Some (mkSession (sessions_created s)
               [("Authorization", Some ("Bearer " ++ fstr (dict_get d "access"))%string)])
    /\ (dict_get d "access" = None ->
        session (self s') =
        Some (mkSession (sessions_created s) [("Authorization", Some "Bearer None")]))
    /\ requests_made s' = S (requests_made s)
    /\ trace s' =
       trace s ++
       [EvSession (sessions_created s);
        EvRequest (sessions_created s)
          (mkRequest "post" (url (self s) ++ "/" ++ "token/")%string []
             (Some [("username", user (self s)); ("password", password (self s))]))].
Proof.
  intros Hc Ha Hr Hb.
  rewrite connect_spec, Hc. cbn [negb].
  rewrite connect_post_step. unfold MAX_RETRIES. cbn [seq].
  rewrite (loop_success_step server _ 0 _ "post" _ _ None (opened s)
             (mkSession (sessions_created s) []) r eq_refl Ha Hr).
  rewrite Hr, Hb.
  eexists. split; [reflexivity|].
  cbn. rewrite <- app_assoc.
  repeat split. intros Hnone. rewrite Hnone. reflexivity.
Qed.

Lemma connect_with_credentials_witness :
  exists s',
    connect granting_server 0 admin_client = Returns tt s'
    /\ _token (self s') = Some "a1"
    /\ _refresh_token (self s') = Some "r2".
Proof.
  destruct (connect_with_credentials_stores_tokens granting_server 0 admin_client
              ok_tokens [("access", Some "a1"); ("refresh", Some "r2")]
              eq_refl eq_refl eq_refl eq_refl)
    as (s' & H & Ht & Hrt & _).
  exists s'. split; [exact H|]. split; [exact Ht | exact Hrt].
Defined.

(** X7: on a client with a user and a password, when the first token
    request of [connect] is answered with an error status (and no
    refresh of an older token is triggered), [connect] raises
    [HTTPError] with that response; when it is answered without an
    error status but not by JSON, it raises the decoding error.  In
    both cases, where [connect] raises, one request was sent, [_token]
    and [_refresh_token] are what they were, and the session is the one
    just opened, which holds no Authorization header. *)
Theorem connect_failure_leaves_unauthenticated_session server depth s r :
  truthy (user (self s)) && truthy (password (self s)) = true ->
  server (requests_made s)
    (mkRequest "post" (url (self s) ++ "/" ++ "token/")%string []
       (Some [("username", user (self s)); ("password", password (self s))]))
  = Answer r ->
  let s' := after_request "post" (url (self s) ++ "/" ++ "token/")%string
              (Some (credentials (self s))) (opened s) in
  (is_http_error r = true ->
   (status_code r =? 403)%Z && truthy (_refresh_token (self s)) = false ->
   connect server depth s = Raises (HTTPError r) s')
  /\ (is_http_error r = false -> body r = NotJson ->
      connect server depth s = Raises JSONDecodeError s')
  /\ _token (self s') = _token (self s)
  /\ _refresh_token (self s') = _refresh_token (self s)
  /\ session (self s') = Some (mkSession (sessions_created s) [])
  /\ requests_made s' = S (requests_made s).
Proof.
  intros Hc Ha s'.
  split; [|split; [|repeat split]].
  - intros Hr Hno.
    rewrite connect_spec, Hc. cbn [negb].
    rewrite connect_post_step. unfold MAX_RETRIES. cbn [seq].
    rewrite (loop_http_error_step server _ 0 _ "post" _ _ None (opened s)
               (mkSession (sessions_created s) []) r eq_refl Ha Hr).
    rewrite on_http_error_spec, after_request_self.
    cbn [opened self set_session _refresh_token]. rewrite Hno, Hr. reflexivity.
  - intros Hr Hb.
    rewrite connect_spec, Hc. cbn [negb].
    rewrite connect_post_step. unfold MAX_RETRIES. cbn [seq].
    rewrite (loop_success_step server _ 0 _ "post" _ _ None (opened s)
               (mkSession (sessions_created s) []) r eq_refl Ha Hr).
    rewrite Hr, Hb. reflexivity.
Qed.

Lemma connect_failure_witness :
  exists s',
    connect absent_server 0 admin_client = Raises (HTTPError not_found) s'
    /\ session (self s') = Some (mkSession 0 [])
    /\ _token (self s') = None.
Proof.
  pose proof (connect_failure_leaves_unauthenticated_session absent_server 0
                admin_client not_found eq_refl eq_refl) as H.
  cbv zeta in H. destruct H as (H1 & _ & H3 & _ & H5 & _).
  eexists. split; [apply H1; reflexivity|]. split; [exact H5 | exact H3].
Defined.

(* ------------------------------------------------------------------ *)
(** ** [_refresh_auth_token] *)

Lemma refresh_post_step server depth s sess :
  session (self s) = Some sess ->
  _make_request server depth "post" "token/refresh/"
    (Some [("refresh", _refresh_token (self s))]) (logged "Refreshing token..." s) =
  request_loop server (post_frame server depth) (seq 0 MAX_RETRIES) "post"
    (url (self s) ++ "/" ++ "token/refresh/")%string
    (Some [("refresh", _refresh_token (self s))]) None
    (logged "Refreshing token..." s).
Proof.
  intros Hs.
  apply (make_request_unfold server depth "post" "token/refresh/" _
           (logged "Refreshing token..." s) sess).
  exact Hs.
Qed.

(** X8: a granted refresh replaces the access token and nothing else.
    [_refresh_auth_token] posts the refresh token to
    [url/token/refresh/] under the header the session had; answered
    without an error status by a JSON object, it sets [_token] to the
    value under ["access"], rewrites the Authorization header of the
    same session to its bearer, and keeps [_refresh_token] whatever
    else the answer holds. *)
Theorem refresh_replaces_access_token_only server depth s sess r d :
  session (self s) = Some sess ->
  server (requests_made s)
    (mkRequest "post" (url (self s) ++ "/" ++ "token/refresh/")%string (headers sess)
       (Some [("refresh", _refresh_token (self s))]))
  = Answer r ->
  is_http_error r = false ->
  body r = JsonObject d ->
  exists s',
    _refresh_auth_token (_make_request server depth "post") s = Returns tt s'
    /\ _token (self s') = dict_get d "access"
    /\ _refresh_token (self s') = _refresh_token (self s)
    /\ (exists cur,
          session (self s') = Some cur
          /\ sid cur = sid sess
          /\ dict_get (headers cur) "Authorization"
             = Some ("Bearer " ++ fstr (dict_get d "access"))%string
          /\ (forall key, key <> "Authorization" ->
                dict_get (headers cur) key = dict_get (headers sess) key))
    /\ requests_made s' = S (requests_made s)
    /\ sessions_created s' = sessions_created s
    /\ sleeps (trace s') = sleeps (trace s).
Proof.
  intros Hs Ha Hr Hb.
  rewrite refresh_spec.
  rewrite (refresh_post_step server depth s sess Hs).
  unfold MAX_RETRIES. cbn [seq].
  rewrite (loop_success_step server _ 0 _ "post" _ _ None
             (logged "Refreshing token..." s) sess r Hs Ha Hr).
  rewrite Hr, Hb.
  rewrite after_request_self. cbn [logged self]. rewrite Hs.
  eexists. split; [reflexivity|].
  unfold with_token. rewrite after_request_self. cbn [logged self]. rewrite Hs.
  rewrite (after_request_connected _ _ _ (logged "Refreshing token..." s) sess Hs).
  cbn [self set_session set_token _token _refresh_token session requests_made
       sessions_created trace logged].
  split; [reflexivity|]. split; [reflexivity|].
  split.
  { eexists. split; [reflexivity|]. cbn [sid headers].
    split; [reflexivity|]. split; [apply dict_get_update_same|].
    intros key Hk. apply dict_get_update_other. congruence. }
  split; [reflexivity|]. split; [reflexivity|].
  rewrite !sleeps_app. cbn [sleeps]. rewrite !app_nil_r. reflexivity.
Qed.

Lemma refresh_replaces_access_token_witness :
  exists s',
    _refresh_auth_token (_make_request granting_server 0 "post") stale_client
    = Returns tt s'
    /\ _token (self s') = Some "a1"
    /\ _refresh_token (self s') = Some "r1".
Proof.
  destruct (refresh_replaces_access_token_only granting_server 0 stale_client
              (mkSession 0 [("Authorization", Some "Bearer stale")]) ok_tokens
              [("access", Some "a1"); ("refresh", Some "r2")]
              eq_refl eq_refl eq_refl eq_refl)
    as (s' & H & Ht & Hrt & _).
  exists s'. split; [exact H|]. split; [exact Ht | exact Hrt].
Defined.

(** X9: a refused refresh changes nothing on the client.  When the
    refresh request is answered with an error status other than one that
    triggers a further refresh, [_refresh_auth_token] raises [HTTPError]
    with that response; when it is answered without an error status but
    not by JSON, it raises the decoding error.  In both cases the client
    object (token, refresh token, session and its header) is the one it
    was. *)
Theorem refused_refresh_keeps_client server depth s sess r :
  session (self s) = Some sess ->
  server (requests_made s)
    (mkRequest "post" (url (self s) ++ "/" ++ "token/refresh/")%string (headers sess)
       (Some [("refresh", _refresh_token (self s))]))
  = Answer r ->
  let s' := after_request "post" (url (self s) ++ "/" ++ "token/refresh/")%string
              (Some [("refresh", _refresh_token (self s))])
              (logged "Refreshing token..." s) in
  (is_http_error r = true ->
   (status_code r =? 403)%Z && truthy (_refresh_token (self s)) = false ->
   _refresh_auth_token (_make_request server depth "post") s = Raises (HTTPError r) s')
  /\ (is_http_error r = false -> body r = NotJson ->
      _refresh_auth_token (_make_request server depth "post") s
      = Raises JSONDecodeError s')
  /\ self s' = self s
  /\ requests_made s' = S (requests_made s).
Proof.
  intros Hs Ha s'.
  split; [|split; [|split]].
  - intros Hr Hno. rewrite refresh_spec.
    rewrite (refresh_post_step server depth s sess Hs).
    unfold MAX_RETRIES. cbn [seq].
    rewrite (loop_http_error_step server _ 0 _ "post" _ _ None
               (logged "Refreshing token..." s) sess r Hs Ha Hr).
    rewrite on_http_error_spec, after_request_self. cbn [logged self].
    rewrite Hno, Hr. reflexivity.
  - intros Hr Hb. rewrite refresh_spec.
    rewrite (refresh_post_step server depth s sess Hs).
    unfold MAX_RETRIES. cbn [seq].
    rewrite (loop_success_step server _ 0 _ "post" _ _ None
               (logged "Refreshing token..." s) sess r Hs Ha Hr).
    rewrite Hr, Hb. reflexivity.
  - unfold s'. rewrite after_request_self. reflexivity.
  - unfold s'.
    rewrite (after_request_connected _ _ _ (logged "Refreshing token..." s) sess Hs).
    reflexivity.
Qed.

Lemma refused_refresh_witness :
  exists s',
    _refresh_auth_token (_make_request absent_server 0 "post") stale_client
    = Raises (HTTPError not_found) s'
    /\ self s' = self stale_client.
Proof.
  pose proof (refused_refresh_keeps_client absent_server 0 stale_client
                (mkSession 0 [("Authorization", Some "Bearer stale")]) not_found
                eq_refl eq_refl) as H.
  cbv zeta in H. destruct H as (H1 & _ & H3 & _).
  eexists. split; [apply H1; reflexivity | exact H3].
Defined.

(** X10: nothing bounds the nesting of refreshes.  If every request,
    the refresh request included, is answered 403 while a refresh token
    is held, [_make_request] calls [_refresh_auth_token], whose [post]
    calls [_make_request] again, and so on: for no nesting budget does
    the call return or raise. *)
Theorem refresh_rejected_with_403_never_ends server :
  (forall n rq, exists r, server n rq = Answer r /\ status_code r = 403%Z) ->
  forall depth method uri json s,
    session (self s) <> None ->
    truthy (_refresh_token (self s)) = true ->
    _make_request server depth method uri json s = Diverges.
Proof.
  intros Hsrv depth.
  induction depth as [|d IH]; intros method uri json s Hconn Hrt;
    (destruct (session (self s)) as [sess|] eqn:Hs; [|contradiction]);
    rewrite (make_request_unfold server _ method uri json s sess Hs);
    unfold MAX_RETRIES; cbn [seq];
    destruct (Hsrv (requests_made s)
                (mkRequest method (url (self s) ++ "/" ++ uri)%string (headers sess) json))
      as (r & Ha & H403);
    rewrite (loop_http_error_step server _ 0 _ method _ json None s sess r Hs Ha
               (is_http_error_403 r H403));
    rewrite on_http_error_spec, after_request_self, H403, Hrt; cbn [Z.eqb Pos.eqb andb];
    rewrite refresh_spec.
  - reflexivity.
  - cbn [post_frame]. rewrite IH; [reflexivity | |].
    + cbn [logged self]. rewrite after_request_self, Hs. discriminate.
    + cbn [logged self]. rewrite after_request_self. exact Hrt.
Qed.

Lemma refresh_rejected_witness :
  get rejecting_server 7 "events/" stale_client = Diverges.
Proof.
  unfold get.
  apply (refresh_rejected_with_403_never_ends rejecting_server).
  - intros n rq. exists forbidden. split; reflexivity.
  - discriminate.
  - reflexivity.
Defined.

(* ------------------------------------------------------------------ *)
(** ** Without a refresh token *)

Lemma loop_bounded server post_rec attempts :
  forall method target json last s,
    truthy (_refresh_token (self s)) = false ->
    match request_loop server post_rec attempts method target json last s with
    | Returns _ s' =>
        requests_made s <= requests_made s' <= requests_made s + length attempts
    | Raises _ s' =>
        requests_made s <= requests_made s' <= requests_made s + length attempts
    | Diverges => False
    end.
Proof.
  induction attempts as [|a rest IH]; intros method target json last s Hrt.
  - destruct last; cbn; lia.
  - destruct (session (self s)) as [sess|] eqn:Hs.
    2:{ cbn [request_loop]. unfold session_request. rewrite Hs. cbn. lia. }
    assert (Hone : requests_made (after_request method target json s)
                   = S (requests_made s)).
    { rewrite (after_request_connected _ _ _ s sess Hs). reflexivity. }
    assert (Hret : forall r,
      on_http_error post_rec r (after_request method target json s) =
      Returns (Some r) (after_request method target json s)).
    { intros r. rewrite on_http_error_spec, after_request_self, Hrt.
      rewrite andb_false_r. reflexivity. }
    rewrite (loop_step server post_rec a rest method target json last s sess Hs).
    destruct (server (requests_made s) (mkRequest method target (headers sess) json))
      as [r|e].
    + destruct (is_http_error r); [rewrite Hret|]; rewrite Hone; cbn [length]; lia.
    + destruct (is_transport_error e).
      * specialize (IH method target json (Some e)
                       (after_failure method target json s a) Hrt).
        destruct (request_loop server post_rec rest method target json (Some e)
                    (after_failure method target json s a));
          cbn [after_failure requests_made length] in *; try lia; exact IH.
      * destruct e; try rewrite Hret; rewrite Hone; cbn [length]; lia.
Qed.

(** X11: a client that holds no refresh token sends at most
    [MAX_RETRIES] requests per call, and the call ends (it returns or
    raises) whatever the server does. *)
Theorem request_without_refresh_token_is_bounded server depth method uri json s :
  truthy (_refresh_token (self s)) = false ->
  match _make_request server depth method uri json s with
  | Returns _ s' =>
      requests_made s <= requests_made s' <= requests_made s + MAX_RETRIES
  | Raises _ s' =>
      requests_made s <= requests_made s' <= requests_made s + MAX_RETRIES
  | Diverges => False
  end.
Proof.
  intros Hrt. destruct (session (self s)) as [sess|] eqn:Hs.
  - rewrite (make_request_unfold server depth method uri json s sess Hs).
    pose proof (loop_bounded server (post_frame server depth) (seq 0 MAX_RETRIES)
                  method (url (self s) ++ "/" ++ uri)%string json None s Hrt) as H.
    rewrite length_seq in H. exact H.
  - rewrite (request_before_connect_facts server depth method uri json s Hs).
    lia.
Qed.

Lemma request_without_refresh_token_witness :
  exists e s',
    get dead_server 0 "events/" anonymous_client = Raises e s'
    /\ requests_made s' <= 5.
Proof.
  pose proof (request_without_refresh_token_is_bounded dead_server 0 "get"
                "events/" None anonymous_client eq_refl) as H.
  unfold get.
  destruct (_make_request dead_server 0 "get" "events/" None anonymous_client)
    as [v s'|e s'|] eqn:Hrun.
  - vm_compute in Hrun. discriminate Hrun.
  - exists e, s'. split; [reflexivity|].
    change (0 <= requests_made s' <= 0 + 5) in H. lia.
  - destruct H.
Defined.

End ClientProofs.

(* ================================================================== *)
(** * The statistics engine: proofs *)
(* ================================================================== *)

Module MetricsProofs.
Import Metrics.

(** ** Sums and prefixes *)

Lemma sum_cons x l : sum (x :: l) = x + sum l.
Proof. reflexivity. Qed.

Lemma sum_app l1 l2 : sum (l1 ++ l2) = sum l1 + sum l2.
Proof.
  induction l1 as [|x l1 IH]; [reflexivity|].
  cbn [app]. rewrite !sum_cons, IH. lia.
Qed.

Lemma sum_perm l1 l2 : Permutation l1 l2 -> sum l1 = sum l2.
Proof.
  induction 1; rewrite ?sum_cons; lia.
Qed.

Lemma sum_firstn_le l : forall i j, i <= j -> sum (firstn i l) <= sum (firstn j l).
Proof.
  induction l as [|x l IH]; intros i j Hij.
  - rewrite !firstn_nil. lia.
  - destruct i as [|i]; [cbn; lia|].
    destruct j as [|j]; [lia|].
    cbn [firstn]. rewrite !sum_cons. specialize (IH i j ltac:(lia)). lia.
Qed.

Lemma sum_firstn_all l : sum (firstn (length l) l) = sum l.
Proof. rewrite firstn_all. reflexivity. Qed.

(** ** The ledger *)

Lemma record_sum key l : sum (counts (record key l)) = S (sum (counts l)).
Proof.
  induction l as [|[k n] l IH]; [reflexivity|].
  cbn [record]. destruct (String.eqb k key).
  - reflexivity.
  - unfold counts in *. cbn [map snd]. rewrite !sum_cons, IH. lia.
Qed.

Lemma record_not_nil key l : record key l <> [].
Proof.
  destruct l as [|[k n] l]; cbn; [discriminate|].
  destruct (String.eqb k key); discriminate.
Qed.

Lemma insert_ranked_perm x l : Permutation (insert_ranked x l) (x :: l).
Proof.
  induction l as [|y l IH]; [apply Permutation_refl|].
  cbn [insert_ranked]. destruct (snd x <? snd y).
  - eapply perm_trans; [apply perm_skip, IH | apply perm_swap].
  - apply Permutation_refl.
Qed.

Lemma ranked_perm l : Permutation (ranked_by_count l) l.
Proof.
  induction l as [|x l IH]; [apply perm_nil|].
  cbn [ranked_by_count fold_right].
  eapply perm_trans; [apply insert_ranked_perm | apply perm_skip, IH].
Qed.

Lemma insert_ranked_descending x l :
  descending l -> descending (insert_ranked x l).
Proof.
  unfold descending. induction l as [|y l IH]; intros Hl.
  - repeat constructor.
  - cbn [insert_ranked]. destruct (snd x <? snd y) eqn:Hxy.
    + apply Nat.ltb_lt in Hxy. inversion Hl as [|? ? Hl' Hall]; subst.
      constructor; [apply IH, Hl'|].
      apply Forall_forall. intros z Hz.
      apply (Permutation_in _ (insert_ranked_perm x l)) in Hz.
      destruct Hz as [<-|Hz]; [lia|].
      rewrite Forall_forall in Hall. apply Hall, Hz.
    + apply Nat.ltb_ge in Hxy. constructor; [exact Hl|].
      inversion Hl as [|? ? Hl' Hall]; subst.
      constructor; [exact Hxy|].
      eapply Forall_impl; [|exact Hall]. cbn. intros z Hz. lia.
Qed.

Lemma ranked_descending l : descending (ranked_by_count l).
Proof.
  induction l as [|x l IH]; [constructor|].
  apply insert_ranked_descending, IH.
Qed.

Lemma with_count_cons c y l :
  with_count c (y :: l) =
  if snd y =? c then y :: with_count c l else with_count c l.
Proof. reflexivity. Qed.

(** Among the entries of one count the new entry comes first. *)
Lemma insert_ranked_with_count c x l :
  with_count c (insert_ranked x l) = with_count c (x :: l).
Proof.
  induction l as [|y l IH]; [reflexivity|].
  cbn [insert_ranked]. destruct (snd x <? snd y) eqn:Hxy; [|reflexivity].
  apply Nat.ltb_lt in Hxy.
  rewrite (with_count_cons c y), IH, !with_count_cons.
  destruct (snd x =? c) eqn:Hx; [|reflexivity].
  apply Nat.eqb_eq in Hx.
  destruct (snd y =? c) eqn:Hy; [|reflexivity].
  apply Nat.eqb_eq in Hy. lia.
Qed.

(** Ties keep the first-seen order. *)
Lemma ranked_stable c l : with_count c (ranked_by_count l) = with_count c l.
Proof.
  induction l as [|x l IH]; [reflexivity|].
  cbn [ranked_by_count fold_right]. rewrite insert_ranked_with_count.
  fold (ranked_by_count l). rewrite !with_count_cons, IH.
  reflexivity.
Qed.

Lemma ranked_sum l : sum (counts (ranked_by_count l)) = sum (counts l).
Proof. apply sum_perm, Permutation_map, ranked_perm. Qed.

Lemma ranked_length l : length (counts (ranked_by_count l)) = length l.
Proof.
  unfold counts. rewrite length_map. apply Permutation_length, ranked_perm.
Qed.

(** ** Ingestion keeps the engine consistent *)

Section Ingestion.

Variable code_extensions : list string.

Lemma absorb_changes_total cs :
  forall st, total_commit_count (fold_left absorb_change cs st) = total_commit_count st.
Proof.
  induction cs as [|fc cs IH]; intros st; [reflexivity|].
  cbn [fold_left]. rewrite IH. reflexivity.
Qed.

Lemma absorb_commit_count e c : get_commit_count (absorb e c) = S (get_commit_count e).
Proof.
  unfold get_commit_count, absorb. cbn [state]. rewrite absorb_changes_total.
  reflexivity.
Qed.

Lemma absorb_consistent e c : consistent e -> consistent (absorb e c).
Proof.
  intros (Hi & Ho & _). unfold consistent. rewrite absorb_commit_count.
  unfold absorb. cbn [identities organizations]. rewrite !record_sum.
  repeat split; lia.
Qed.

Lemma process_event_consistent e ev :
  consistent e -> consistent (process_event code_extensions e ev).
Proof.
  intros H. unfold process_event.
  destruct (normalize code_extensions ev); [apply absorb_consistent, H | exact H].
Qed.

Lemma process_events_consistent events :
  forall e, consistent e -> consistent (process_events code_extensions e events).
Proof.
  unfold process_events.
  induction events as [|ev events IH]; intros e H; [exact H|].
  cbn [fold_left]. apply IH, process_event_consistent, H.
Qed.

Lemma ingested_from_consistent batches :
  forall e, consistent e ->
    consistent (fold_left (process_events code_extensions) batches e).
Proof.
  induction batches as [|b batches IH]; intros e H; [exact H|].
  cbn [fold_left]. apply IH, process_events_consistent, H.
Qed.

Lemma ingested_consistent batches : consistent (ingested code_extensions batches).
Proof.
  apply ingested_from_consistent. repeat split.
Qed.

End Ingestion.

(** ** Pony factor *)

Lemma take_until_spec ranked :
  forall threshold cum k,
    cum < threshold ->
    threshold <= cum + sum ranked ->
    exists j,
      take_until ranked threshold cum k = k + j
      /\ 1 <= j <= length ranked
      /\ threshold <= cum + sum (firstn j ranked)
      /\ (forall i, i < j -> cum + sum (firstn i ranked) < threshold).
Proof.
  induction ranked as [|c rest IH]; intros threshold cum k Hlt Hge.
  - cbn in Hge. lia.
  - cbn [take_until]. destruct (threshold <=? cum + c) eqn:Hc.
    + apply Nat.leb_le in Hc. exists 1. cbn [firstn length].
      rewrite sum_cons. cbn [sum fold_right]. repeat split; try lia.
      intros i Hi. replace i with 0 by lia. cbn. lia.
    + apply Nat.leb_gt in Hc. rewrite sum_cons in Hge.
      destruct (IH threshold (cum + c) (S k) Hc ltac:(lia))
        as (j & Hj & Hlen & Hsum & Hmin).
      exists (S j). cbn [firstn length]. rewrite sum_cons.
      repeat split; try lia.
      intros i Hi. destruct i as [|i]; [cbn; lia|].
      cbn [firstn]. rewrite sum_cons.
      specialize (Hmin i ltac:(lia)). lia.
Qed.

Lemma ceil_half_bounds total :
  0 < total -> 0 < ceil_half total <= total /\ total <= 2 * ceil_half total
               /\ 2 * ceil_half total <= total + 1.
Proof.
  intros H. unfold ceil_half.
  pose proof (Nat.div_mod_eq (total + 1) 2) as Hd.
  pose proof (Nat.mod_upper_bound (total + 1) 2 ltac:(lia)) as Hm.
  lia.
Qed.

(** C1: after any sequence of ingestion calls that leaves at least one
    commit, [get_pony_factor] is the smallest k for which the k first
    contributors, ranked by descending commit count with ties in
    first-seen order, hold at least half (rounded up) of all commits;
    it is 0 when there is no commit; on the 9-commit fixture it is 1,
    and 2 after three more commits of one new identity. *)
Theorem pony_factor_is_least_half_cover code_extensions :
  (forall batches,
     let e := ingested code_extensions batches in
     let ranked := ranked_by_count (identities e) in
     let k := get_pony_factor e in
     0 < get_commit_count e ->
     Permutation ranked (identities e)
     /\ descending ranked
     /\ (forall c, with_count c ranked = with_count c (identities e))
     /\ 1 <= k <= get_contributor_count e
     /\ ceil_half (get_commit_count e) <= sum (firstn k (counts ranked))
     /\ get_commit_count e <= 2 * sum (firstn k (counts ranked))
     /\ (forall j, j < k ->
           sum (firstn j (counts ranked)) < ceil_half (get_commit_count e)
           /\ 2 * sum (firstn j (counts ranked)) < get_commit_count e))
  /\ (forall batches,
        get_commit_count (ingested code_extensions batches) = 0 ->
        get_pony_factor (ingested code_extensions batches) = 0)
  /\ get_pony_factor GitEventsAnalyzer = 0
  /\ get_pony_factor (ingested code_extensions [fixture_events]) = 1
  /\ get_pony_factor
       (ingested code_extensions
          [fixture_events; extra_events "Author 1 <author1@example2.com>" 3]) = 2.
Proof.
  split; [|split; [|split; [|split]]].
  - intros batches e ranked k Hpos.
    destruct (ingested_consistent code_extensions batches) as (Hsum & _ & _).
    fold e in Hsum.
    destruct (ceil_half_bounds _ Hpos) as (Hh1 & Hh2 & Hh3).
    destruct (take_until_spec (counts ranked) (ceil_half (get_commit_count e)) 0 0)
      as (j & Hj & Hlen & Hcover & Hmin).
    { lia. }
    { unfold ranked. rewrite ranked_sum, Hsum. lia. }
    assert (Hk : k = j).
    { unfold k, get_pony_factor, diversity_factor.
      destruct (get_commit_count e =? 0) eqn:Hz;
        [apply Nat.eqb_eq in Hz; lia|].
      exact Hj. }
    rewrite Hk. unfold ranked in Hlen. rewrite ranked_length in Hlen.
    split; [apply ranked_perm|].
    split; [apply ranked_descending|].
    split; [intros c; apply ranked_stable|].
    split; [exact Hlen|].
    split; [exact Hcover|].
    split; [lia|].
    intros i Hi. specialize (Hmin i Hi). lia.
  - intros batches Hz. unfold get_pony_factor, diversity_factor.
    rewrite Hz. reflexivity.
  - reflexivity.
  - vm_compute. reflexivity.
  - vm_compute. reflexivity.
Qed.

Lemma pony_factor_witness :
  0 < get_commit_count (ingested [] [fixture_events])
  /\ 5 <= sum (firstn 1 (counts (ranked_by_count
                (identities (ingested [] [fixture_events]))))).
Proof.
  split; [vm_compute; lia|].
  destruct (pony_factor_is_least_half_cover []) as (H & _).
  destruct (H [fixture_events]) as (_ & _ & _ & _ & Hc & _).
  - vm_compute. lia.
  - exact Hc.
Defined.

(** ** Developer categories *)

Lemma divide_by_total a total :
  total <> 0 ->
  divide (inject_Z a) (inject_Z (Z.of_nat total)) =
  Ok (inject_Z a / inject_Z (Z.of_nat total))%Q.
Proof.
  intros Ht. unfold divide.
  destruct (Qeq_bool (inject_Z (Z.of_nat total)) 0) eqn:Hq; [|reflexivity].
  apply Qeq_bool_eq in Hq. unfold Qeq in Hq. cbn in Hq. lia.
Qed.

Lemma tier_of_share_mono q1 q2 :
  (q1 <= q2)%Q -> tier_rank (tier_of_share q1) <= tier_rank (tier_of_share q2).
Proof.
  intros Hle.
  assert (Hdown : forall x, Qle_bool q2 x = true -> Qle_bool q1 x = true).
  { intros x Hx. apply Qle_bool_iff. apply Qle_bool_iff in Hx.
    eapply Qle_trans; eassumption. }
  unfold tier_of_share.
  destruct (Qle_bool q2 (80 # 100)) eqn:A2.
  - rewrite (Hdown _ A2). cbn. lia.
  - destruct (Qle_bool q2 (95 # 100)) eqn:B2.
    + rewrite (Hdown _ B2). destruct (Qle_bool q1 (80 # 100)); cbn; lia.
    + destruct (Qle_bool q1 (80 # 100)); [cbn; lia|].
      destruct (Qle_bool q1 (95 # 100)); cbn; lia.
Qed.

Lemma share_mono a b total :
  a <= b ->
  (inject_Z (Z.of_nat a) / inject_Z (Z.of_nat total)
   <= inject_Z (Z.of_nat b) / inject_Z (Z.of_nat total))%Q.
Proof.
  intros Hab. unfold Qdiv. apply Qmult_le_compat_r.
  - rewrite <- Zle_Qle. lia.
  - apply Qinv_le_0_compat. change 0%Q with (inject_Z 0).
    rewrite <- Zle_Qle. lia.
Qed.

Lemma tier_at_mono ranked total i j :
  i <= j -> tier_rank (tier_at ranked total i) <= tier_rank (tier_at ranked total j).
Proof.
  intros Hij. unfold tier_at. apply tier_of_share_mono, share_mono.
  apply sum_firstn_le. lia.
Qed.

Lemma firstn_succ_length (pre : list nat) c rest :
  firstn (S (length pre)) (pre ++ c :: rest) = pre ++ [c].
Proof.
  induction pre as [|x pre IH]; [reflexivity|].
  cbn [length app]. rewrite firstn_cons, IH. reflexivity.
Qed.

(** The walk tallies the tiers of the ranks one after the other. *)
Lemma categorize_tiers total rest :
  total <> 0 ->
  forall pre acc,
    categorize rest total (sum pre) acc =
    Ok (fold_left (fun a i => count_tier (tier_at (pre ++ rest) total i) a)
                  (seq (length pre) (length rest)) acc).
Proof.
  intros Ht. induction rest as [|c rest IH]; intros pre acc; [reflexivity|].
  cbn [categorize length seq fold_left].
  rewrite (divide_by_total _ total Ht).
  replace (sum pre + c) with (sum (pre ++ [c])) by (rewrite sum_app; cbn; lia).
  rewrite IH. rewrite <- app_assoc. cbn [app].
  rewrite length_app. cbn [length]. rewrite Nat.add_1_r.
  do 3 f_equal. unfold tier_at. rewrite firstn_succ_length. reflexivity.
Qed.

Ltac ltb_cases :=
  repeat match goal with
         | |- context [?a <? ?b] => destruct (Nat.ltb_spec a b)
         | H : context [?a <? ?b] |- _ => destruct (Nat.ltb_spec a b)
         end.

Section Tally.

Variable f : nat -> Tier.
Hypothesis f_mono : forall i j, i <= j -> tier_rank (f i) <= tier_rank (f j).

Lemma tally_step m acc :
  tally_ok f m acc -> tally_ok f (S m) (count_tier (f m) acc).
Proof.
  intros [Hsum Hph].
  assert (Hlast : m = 0 \/ exists p, m = S p /\ f p = phase (core acc) (regular acc) p).
  { destruct m as [|p]; [left; reflexivity|].
    right. exists p. split; [reflexivity | apply Hph; lia]. }
  destruct (f m) eqn:Hfm; unfold tally_ok; cbn [count_tier core regular casual].
  - assert (Hall : forall i, i <= m -> f i = Core).
    { intros i Hi. specialize (f_mono i m Hi). rewrite Hfm in f_mono.
      destruct (f i); cbn in f_mono; try lia; reflexivity. }
    assert (Hcore : m <= core acc).
    { destruct Hlast as [->|(p & -> & Hp)]; [lia|].
      rewrite (Hall p) in Hp by lia. unfold phase in Hp.
      ltb_cases; try discriminate; lia. }
    split; [lia|]. intros i Hi. rewrite (Hall i) by lia.
    unfold phase. ltb_cases; try reflexivity; lia.
  - assert (Hall : forall i, i <= m -> f i <> Casual).
    { intros i Hi Hc. specialize (f_mono i m Hi). rewrite Hfm, Hc in f_mono.
      cbn in f_mono. lia. }
    assert (Hcr : m <= core acc + regular acc).
    { destruct Hlast as [->|(p & -> & Hp)]; [lia|].
      pose proof (Hall p ltac:(lia)) as Hnc. rewrite Hp in Hnc.
      unfold phase in Hnc. ltb_cases; try lia; congruence. }
    split; [lia|]. intros i Hi.
    destruct (Nat.eq_dec i m) as [->|Hne].
    + rewrite Hfm. unfold phase. ltb_cases; try reflexivity; lia.
    + rewrite (Hph i) by lia. unfold phase.
      ltb_cases; try reflexivity; lia.
  - split; [lia|]. intros i Hi.
    destruct (Nat.eq_dec i m) as [->|Hne].
    + rewrite Hfm. unfold phase. ltb_cases; try reflexivity; lia.
    + apply Hph. lia.
Qed.

Lemma tally_fold n :
  forall m acc,
    tally_ok f m acc ->
    tally_ok f (m + n) (fold_left (fun a i => count_tier (f i) a) (seq m n) acc).
Proof.
  induction n as [|n IH]; intros m acc H.
  - rewrite Nat.add_0_r. exact H.
  - cbn [seq fold_left]. replace (m + S n) with (S m + n) by lia.
    apply IH, tally_step, H.
Qed.

End Tally.

(** C2: after any sequence of ingestion calls, [get_developer_categories]
    returns three counts which sum to [get_contributor_count] and which
    describe the walk over the contributors ranked by descending commit
    count: the contributor of rank [i] has the tier of the cumulative
    share of the first [i + 1] (core when at most 0.80, regular when at
    most 0.95, casual otherwise), the [core] first ranks being core, the
    [regular] next ones regular, the others casual; the counts are all
    zero when there is no commit; the fixture gives core 1, regular 1,
    casual 1, and four more commits of one new identity give 2, 1, 1. *)
Theorem developer_categories_by_cumulative_share code_extensions :
  (forall batches,
     let e := ingested code_extensions batches in
     let ranked := ranked_by_count (identities e) in
     exists cats,
       get_developer_categories e = Ok cats
       /\ Permutation ranked (identities e)
       /\ descending ranked
       /\ core cats + regular cats + casual cats = get_contributor_count e
       /\ (forall i, i < get_contributor_count e ->
             tier_at (counts ranked) (get_commit_count e) i
             = phase (core cats) (regular cats) i)
       /\ (get_commit_count e = 0 -> cats = mkCategories 0 0 0))
  /\ get_developer_categories GitEventsAnalyzer = Ok (mkCategories 0 0 0)
  /\ get_developer_categories (ingested code_extensions [fixture_events])
     = Ok (mkCategories 1 1 1)
  /\ get_developer_categories
       (ingested code_extensions
          [fixture_events; extra_events "Author 1 <author1@example_new.com>" 4])
     = Ok (mkCategories 2 1 1).
Proof.
  split; [|split; [|split]].
  - intros batches e ranked.
    destruct (ingested_consistent code_extensions batches) as (Hsum & _ & Hempty).
    fold e in Hsum, Hempty.
    unfold get_developer_categories.
    destruct (get_commit_count e =? 0) eqn:Hz.
    + apply Nat.eqb_eq in Hz. exists (mkCategories 0 0 0).
      split; [reflexivity|].
      split; [apply ranked_perm|].
      split; [apply ranked_descending|].
      rewrite (Hempty Hz). cbn.
      repeat split. intros i Hi. lia.
    + apply Nat.eqb_neq in Hz.
      pose proof (categorize_tiers (get_commit_count e) (counts ranked) Hz []
                    (mkCategories 0 0 0)) as Hwalk.
      cbn [app length sum fold_right] in Hwalk.
      assert (Hlen : length (counts ranked) = get_contributor_count e)
        by apply ranked_length.
      rewrite Hlen in Hwalk.
      eexists. split; [exact Hwalk|].
      split; [apply ranked_perm|].
      split; [apply ranked_descending|].
      pose proof (tally_fold (tier_at (counts ranked) (get_commit_count e))
                    (tier_at_mono (counts ranked) (get_commit_count e))
                    (get_contributor_count e) 0 (mkCategories 0 0 0)) as Ht.
      destruct Ht as [Htot Hph].
      { split; [reflexivity|]. intros i Hi. lia. }
      cbn [Nat.add] in Htot, Hph.
      split; [exact Htot|].
      split; [exact Hph|].
      intros H0. contradiction.
  - reflexivity.
  - vm_compute. reflexivity.
  - vm_compute. reflexivity.
Qed.

Lemma developer_categories_witness :
  exists cats,
    get_developer_categories (ingested [] [fixture_events]) = Ok cats
    /\ tier_at (counts (ranked_by_count (identities (ingested [] [fixture_events]))))
               (get_commit_count (ingested [] [fixture_events])) 1
       = phase (core cats) (regular cats) 1.
Proof.
  destruct (developer_categories_by_cumulative_share []) as (H & _).
  destruct (H [fixture_events]) as (cats & Hc & _ & _ & _ & Hph & _).
  exists cats. split; [exact Hc|].
  apply Hph. vm_compute. lia.
Defined.

(** ** The profile of the fixture *)

(** Three contributors with 9 commits on whom the pony factor is 1, the
    categories are 1, 1, 1, and three more commits of a new identity
    raise the pony factor to 2, have 5, 3 and 1 commits. *)
Lemma fixture_profile_forced a b c :
  1 <= c -> c <= b -> b <= a -> a + b + c = 9 ->
  diversity_factor [("a", a); ("b", b); ("c", c)] 9 = 1 ->
  diversity_factor [("a", a); ("b", b); ("c", c); ("n", 3)] 12 = 2 ->
  categorize [a; b; c] 9 0 (mkCategories 0 0 0) = Ok (mkCategories 1 1 1) ->
  (a, b, c) = (5, 3, 1).
Proof.
  intros Hc Hb Ha Hsum H4 H5 H8.
  assert (Hcases :
    (a = 7 /\ b = 1 /\ c = 1) \/ (a = 6 /\ b = 2 /\ c = 1)
    \/ (a = 5 /\ b = 3 /\ c = 1) \/ (a = 5 /\ b = 2 /\ c = 2)
    \/ (a = 4 /\ b = 4 /\ c = 1) \/ (a = 4 /\ b = 3 /\ c = 2)
    \/ (a = 3 /\ b = 3 /\ c = 3)) by lia.
  repeat (destruct Hcases as [(-> & -> & ->)|Hcases]);
    try destruct Hcases as (-> & -> & ->);
    vm_compute in H4, H5, H8; try discriminate; reflexivity.
Qed.

Lemma fixture_profile :
  counts (ranked_by_count (identities (ingested [] [fixture_events]))) = [5; 3; 1].
Proof. vm_compute. reflexivity. Qed.

(** ** The empty engine *)

(** C3: an engine that ingested no commit, whatever batches it was
    given, answers with neutral defaults: pony factor 0, elephant factor
    0, all three developer categories 0, both line totals 0, and an
    empty file-type mapping.  The three ratio queries test the commit
    count first, so they answer this way on any engine whose count is 0,
    where the unguarded walk would divide by zero. *)
Theorem no_commit_gives_neutral_defaults code_extensions :
  (forall batches,
     let e := ingested code_extensions batches in
     get_commit_count e = 0 ->
     get_pony_factor e = 0
     /\ get_elephant_factor e = 0
     /\ get_developer_categories e = Ok (mkCategories 0 0 0)
     /\ get_commit_size_metrics e = mkCommitSize 0 0
     /\ get_file_type_metrics e = [])
  /\ (forall e,
        get_commit_count e = 0 ->
        get_pony_factor e = 0
        /\ get_elephant_factor e = 0
        /\ get_developer_categories e = Ok (mkCategories 0 0 0))
  /\ (forall c rest cum acc, categorize (c :: rest) 0 cum acc = ZeroDivisionError)
  /\ get_pony_factor GitEventsAnalyzer = 0
  /\ get_elephant_factor GitEventsAnalyzer = 0
  /\ get_developer_categories GitEventsAnalyzer = Ok (mkCategories 0 0 0)
  /\ get_commit_size_metrics GitEventsAnalyzer = mkCommitSize 0 0
  /\ get_file_type_metrics GitEventsAnalyzer = [].
Proof.
  assert (Hguard : forall e,
    get_commit_count e = 0 ->
    get_pony_factor e = 0
    /\ get_elephant_factor e = 0
    /\ get_developer_categories e = Ok (mkCategories 0 0 0)).
  { intros e Hz.
    unfold get_pony_factor, get_elephant_factor, diversity_factor,
      get_developer_categories.
    rewrite Hz. repeat split. }
  split; [|split; [exact Hguard|split; [|repeat split]]].
  - intros batches e Hz.
    destruct (Hguard e Hz) as (Hp & He & Hd).
    destruct (ingested_consistent code_extensions batches) as (_ & _ & Hempty).
    fold e in Hempty.
    split; [exact Hp|]. split; [exact He|]. split; [exact Hd|].
    rewrite (Hempty Hz). split; reflexivity.
  - intros c rest cum acc. reflexivity.
Qed.

Lemma no_commit_witness :
  get_commit_count
    (ingested []
       [[mkEnvelope "org.grimoirelab.events.git.tag" (Some "Ada <ada@example.com>") "v1" [];
         mkEnvelope COMMIT_EVENT_TYPE (Some "no email") "fix"
                    [mkFileEntry "a.py" 3 1]]]) = 0
  /\ get_file_type_metrics
       (ingested []
          [[mkEnvelope "org.grimoirelab.events.git.tag" (Some "Ada <ada@example.com>") "v1" [];
            mkEnvelope COMMIT_EVENT_TYPE (Some "no email") "fix"
                       [mkFileEntry "a.py" 3 1]]]) = [].
Proof.
  split; [reflexivity|].
  destruct (no_commit_gives_neutral_defaults []) as (H & _).
  apply H. reflexivity.
Defined.

(** ** Cadence *)

Lemma divide_nonzero a b : ~ (b == 0)%Q -> divide a b = Ok (a / b)%Q.
Proof.
  intros Hb. unfold divide.
  destruct (Qeq_bool b 0) eqn:Hq; [|reflexivity].
  apply Qeq_bool_eq in Hq. contradiction.
Qed.

(** C4: for a positive [days_interval], [get_average_commits_week]
    returns [commit_count / days_interval / 7] (as an exact rational);
    on the fixture with 30 days that is 9/30/7; for a [days_interval] of
    zero it ends in the division error. *)
Theorem average_commits_week_divides code_extensions :
  (forall batches days_interval,
     let e := ingested code_extensions batches in
     (0 < days_interval)%Z ->
     get_average_commits_week e days_interval =
     Ok (inject_Z (Z.of_nat (get_commit_count e)) / inject_Z days_interval / 7)%Q)
  /\ (forall e, get_average_commits_week e 0 = ZeroDivisionError)
  /\ (exists q,
        get_average_commits_week (ingested code_extensions [fixture_events]) 30 = Ok q
        /\ (q == 9 / 30 / 7)%Q).
Proof.
  split; [|split].
  - intros batches days e Hpos. unfold get_average_commits_week.
    rewrite divide_nonzero.
    + apply divide_nonzero. discriminate.
    + unfold Qeq. cbn. lia.
  - intros e. reflexivity.
  - eexists. split; [vm_compute; reflexivity|]. reflexivity.
Qed.

Lemma average_commits_week_witness :
  get_average_commits_week (ingested [] [fixture_events]) 30 =
  Ok (inject_Z (Z.of_nat (get_commit_count (ingested [] [fixture_events])))
      / inject_Z 30 / 7)%Q.
Proof.
  destruct (average_commits_week_divides []) as (H & _).
  apply (H [fixture_events] 30%Z). reflexivity.
Defined.

(** ** Counting commits, contributors and organizations *)

Section Counting.

Variable code_extensions : list string.

Lemma record_length key l :
  length (record key l) = if known key l then length l else S (length l).
Proof.
  unfold known. induction l as [|[k n] l IH]; [reflexivity|].
  cbn [record map fst existsb]. destruct (String.eqb k key); cbn [orb length].
  - reflexivity.
  - rewrite IH. destruct (existsb (fun k0 => String.eqb k0 key) (map fst l));
      reflexivity.
Qed.

Lemma process_event_commit_count e ev :
  get_commit_count (process_event code_extensions e ev) =
  get_commit_count e + (if accepted code_extensions ev then 1 else 0).
Proof.
  unfold process_event, accepted.
  destruct (normalize code_extensions ev) as [c|].
  - rewrite absorb_commit_count. lia.
  - lia.
Qed.

Lemma process_events_commit_count events :
  forall e,
    get_commit_count (process_events code_extensions e events) =
    get_commit_count e + length (filter (accepted code_extensions) events).
Proof.
  unfold process_events.
  induction events as [|ev events IH]; intros e; [cbn; lia|].
  cbn [fold_left filter]. rewrite IH, process_event_commit_count.
  destruct (accepted code_extensions ev); cbn [length]; lia.
Qed.

End Counting.

(** *** Author fields the ingester accepts *)

Lemma string_app_assoc (a b c : string) :
  ((a ++ b) ++ c = a ++ (b ++ c))%string.
Proof.
  induction a as [|x a IH]; [reflexivity|].
  cbn [String.append]. rewrite IH. reflexivity.
Qed.

Lemma occurs_app c (a b : string) :
  occurs c (a ++ b)%string = occurs c a || occurs c b.
Proof.
  induction a as [|x a IH]; [reflexivity|].
  cbn [String.append occurs]. rewrite IH. apply orb_assoc.
Qed.

Lemma after_char_spec c s t :
  after_char c s = Some t <->
  exists pre, s = (pre ++ String c t)%string /\ occurs c pre = false.
Proof.
  split.
  - revert t. induction s as [|a s IH]; intros t H; [discriminate|].
    cbn [after_char] in H. destruct (Ascii.eqb a c) eqn:Hac.
    + apply Ascii.eqb_eq in Hac. subst a. injection H as <-.
      exists EmptyString. split; reflexivity.
    + destruct (IH t H) as (pre & -> & Hpre).
      exists (String a pre). split; [reflexivity|].
      cbn [occurs]. rewrite Hac, Hpre. reflexivity.
  - intros (pre & -> & Hpre). induction pre as [|a pre IH].
    + cbn. rewrite Ascii.eqb_refl. reflexivity.
    + cbn [occurs] in Hpre. apply orb_false_iff in Hpre as [Hac Hpre].
      cbn [String.append after_char]. rewrite Hac. apply IH, Hpre.
Qed.

Lemma before_char_spec c s p :
  before_char c s = Some p <->
  exists rest, s = (p ++ String c rest)%string /\ occurs c p = false.
Proof.
  split.
  - revert p. induction s as [|a s IH]; intros p H; [discriminate|].
    cbn [before_char] in H. destruct (Ascii.eqb a c) eqn:Hac.
    + apply Ascii.eqb_eq in Hac. subst a. injection H as <-.
      exists s. split; reflexivity.
    + destruct (before_char c s) as [q|]; [|discriminate].
      cbn in H. injection H as <-.
      destruct (IH q eq_refl) as (rest & -> & Hq).
      exists rest. split; [reflexivity|].
      cbn [occurs]. rewrite Hac, Hq. reflexivity.
  - intros (rest & -> & Hp). induction p as [|a p IH].
    + cbn. rewrite Ascii.eqb_refl. reflexivity.
    + cbn [occurs] in Hp. apply orb_false_iff in Hp as [Hac Hp].
      cbn [String.append before_char]. rewrite Hac, (IH Hp). reflexivity.
Qed.

(** The parser accepts exactly the well-formed author fields. *)
Lemma parse_organization_accepts author :
  parse_organization author <> None <-> well_formed_author author.
Proof.
  unfold parse_organization, well_formed_author. split.
  - intros H.
    destruct (after_char "<" author) as [tail|] eqn:Ht; [|contradiction].
    destruct (before_char ">" tail) as [email|] eqn:He; [|contradiction].
    destruct (after_char "@" email) as [domain|] eqn:Hd; [|contradiction].
    apply after_char_spec in Ht as (name & -> & Hname).
    apply before_char_spec in He as (rest & -> & Hemail).
    apply after_char_spec in Hd as (local & -> & Hlocal).
    rewrite occurs_app in Hemail. apply orb_false_iff in Hemail as [Hl Hdom].
    cbn [occurs] in Hdom. apply orb_false_iff in Hdom as [_ Hdom].
    exists name, local, domain, rest.
    rewrite string_app_assoc. repeat split; assumption.
  - intros (name & local & domain & rest & -> & Hname & Hat & Hl & Hd).
    assert (Ht : after_char "<" (name ++ "<" ++ local ++ "@" ++ domain ++ ">" ++ rest)%string
                 = Some (local ++ "@" ++ domain ++ ">" ++ rest)%string).
    { apply after_char_spec. exists name. split; [reflexivity | exact Hname]. }
    rewrite Ht.
    assert (He : before_char ">" (local ++ "@" ++ domain ++ ">" ++ rest)%string
                 = Some (local ++ "@" ++ domain)%string).
    { apply before_char_spec. exists rest. split.
      - rewrite string_app_assoc. reflexivity.
      - rewrite occurs_app, Hl. cbn [String.append occurs orb Ascii.eqb].
        cbn. exact Hd. }
    rewrite He.
    assert (Hd' : after_char "@" (local ++ "@" ++ domain)%string = Some domain).
    { apply after_char_spec. exists local. split; [reflexivity | exact Hat]. }
    rewrite Hd'. discriminate.
Qed.

Lemma accepted_iff code_extensions ev :
  accepted code_extensions ev = true <->
  type ev = COMMIT_EVENT_TYPE
  /\ exists author, Author ev = Some author /\ well_formed_author author.
Proof.
  unfold accepted, normalize. split.
  - destruct (String.eqb_spec (type ev) COMMIT_EVENT_TYPE) as [Ht|Ht];
      [|discriminate].
    destruct (Author ev) as [author|]; [|discriminate].
    destruct (parse_organization author) as [org|] eqn:Hp; [|discriminate].
    intros _. split; [exact Ht|]. exists author. split; [reflexivity|].
    apply parse_organization_accepts. rewrite Hp. discriminate.
  - intros (Ht & author & Ha & Hw). rewrite Ht, String.eqb_refl, Ha.
    apply parse_organization_accepts in Hw.
    destruct (parse_organization author); [reflexivity | contradiction].
Qed.

(** X12: [process_events] adds to the commit count exactly the number of
    envelopes of the batch that carry the commit type tag and an author
    field of the shape [name<local@domain>rest]; an envelope that is not
    of this kind leaves the engine as it is; the count never decreases,
    and after any batches both ledgers still sum to the commit count. *)
Theorem commit_count_counts_accepted_events code_extensions batches batch :
  let e := ingested code_extensions batches in
  let e' := process_events code_extensions e batch in
  (forall ev,
     accepted code_extensions ev = true <->
     type ev = COMMIT_EVENT_TYPE
     /\ exists author, Author ev = Some author /\ well_formed_author author)
  /\ (forall e0 ev,
        accepted code_extensions ev = false ->
        process_events code_extensions e0 [ev] = e0)
  /\ get_commit_count e' =
       get_commit_count e + length (filter (accepted code_extensions) batch)
  /\ get_commit_count e <= get_commit_count e'
  /\ sum (counts (identities e')) = get_commit_count e'
  /\ sum (counts (organizations e')) = get_commit_count e'.
Proof.
  intros e e'.
  pose proof (process_events_commit_count code_extensions batch e) as Hc.
  fold e' in Hc.
  destruct (process_events_consistent code_extensions batch e
              (ingested_consistent code_extensions batches)) as (Hi & Ho & _).
  fold e' in Hi, Ho.
  split; [intros ev; apply accepted_iff|].
  split.
  { intros e0 ev Hacc. unfold process_events. cbn [fold_left].
    unfold process_event. unfold accepted in Hacc.
    destruct (normalize code_extensions ev); [discriminate | reflexivity]. }
  repeat split; try assumption. lia.
Qed.

Lemma commit_count_witness :
  accepted [] (commit "Ada <ada@example.com>") = true
  /\ process_events [] GitEventsAnalyzer
       [mkEnvelope COMMIT_EVENT_TYPE (Some "no email") "fix" []]
     = GitEventsAnalyzer.
Proof.
  destruct (commit_count_counts_accepted_events [] [] []) as (Hiff & Hskip & _).
  split.
  - apply Hiff. split; [reflexivity|].
    exists "Ada <ada@example.com>". split; [reflexivity|].
    exists "Ada ", "ada", "example.com", "". repeat split.
  - apply Hskip. reflexivity.
Defined.

(** X13: a commit event with a well-formed author raises
    [get_contributor_count] by one when its author string has no entry
    yet, and leaves it unchanged when it has: contributors are told
    apart by the exact author string. *)
Theorem contributor_count_grows_with_new_identities code_extensions e ev author :
  type ev = COMMIT_EVENT_TYPE ->
  Author ev = Some author ->
  parse_organization author <> None ->
  get_contributor_count (process_events code_extensions e [ev]) =
  if known author (identities e)
  then get_contributor_count e
  else S (get_contributor_count e).
Proof.
  intros Ht Ha Hp.
  unfold process_events. cbn [fold_left]. unfold process_event, normalize.
  rewrite Ht, String.eqb_refl, Ha.
  destruct (parse_organization author) as [org|]; [|contradiction].
  unfold get_contributor_count, distinct_count, absorb.
  cbn [identities identity]. apply record_length.
Qed.

Lemma contributor_count_witness :
  get_contributor_count
    (process_events []
       (ingested [] [fixture_events])
       [commit "Author 1 <author1@example2.com>"]) = 4.
Proof.
  rewrite (contributor_count_grows_with_new_identities []
             (ingested [] [fixture_events])
             (commit "Author 1 <author1@example2.com>")
             "Author 1 <author1@example2.com>" eq_refl eq_refl).
  - reflexivity.
  - discriminate.
Defined.

(** X14: after any sequence of ingestion calls that leaves at least one
    commit, [get_elephant_factor] is the smallest k for which the k
    first organizations, ranked by descending commit count with ties in
    first-seen order, hold at least half (rounded up) of all commits;
    it lies between 1 and the number of organizations, and is 0 when
    there is no commit. *)
Theorem elephant_factor_is_least_half_cover code_extensions batches :
  let e := ingested code_extensions batches in
  let ranked := ranked_by_count (organizations e) in
  let k := get_elephant_factor e in
  (0 < get_commit_count e ->
   Permutation ranked (organizations e)
   /\ descending ranked
   /\ (forall c, with_count c ranked = with_count c (organizations e))
   /\ 1 <= k <= distinct_count (organizations e)
   /\ ceil_half (get_commit_count e) <= sum (firstn k (counts ranked))
   /\ (forall j, j < k ->
         sum (firstn j (counts ranked)) < ceil_half (get_commit_count e)))
  /\ (get_commit_count e = 0 -> k = 0).
Proof.
  intros e ranked k. split.
  - intros Hpos.
    destruct (ingested_consistent code_extensions batches) as (_ & Hsum & _).
    fold e in Hsum.
    destruct (ceil_half_bounds _ Hpos) as (Hh1 & Hh2 & Hh3).
    destruct (take_until_spec (counts ranked) (ceil_half (get_commit_count e)) 0 0)
      as (j & Hj & Hlen & Hcover & Hmin).
    { lia. }
    { unfold ranked. rewrite ranked_sum, Hsum. lia. }
    assert (Hk : k = j).
    { unfold k, get_elephant_factor, diversity_factor.
      destruct (get_commit_count e =? 0) eqn:Hz;
        [apply Nat.eqb_eq in Hz; lia|].
      exact Hj. }
    rewrite Hk. unfold ranked in Hlen. rewrite ranked_length in Hlen.
    split; [apply ranked_perm|].
    split; [apply ranked_descending|].
    split; [intros c; apply ranked_stable|].
    split; [exact Hlen|].
    split; [exact Hcover|].
    intros i Hi. exact (Hmin i Hi).
  - intros Hz. unfold k, get_elephant_factor, diversity_factor.
    rewrite Hz. reflexivity.
Qed.

Lemma elephant_factor_witness :
  0 < get_commit_count
        (ingested [] [fixture_events;
                      extra_events "Author 1 <author1@example2.com>" 5])
  /\ 7 <= sum (firstn 2 (counts (ranked_by_count (organizations
             (ingested [] [fixture_events;
                           extra_events "Author 1 <author1@example2.com>" 5]))))).
Proof.
  assert (Hpos : 0 < get_commit_count
                       (ingested [] [fixture_events;
                          extra_events "Author 1 <author1@example2.com>" 5]))
    by (vm_compute; lia).
  split; [exact Hpos|].
  pose proof (elephant_factor_is_least_half_cover []
                [fixture_events; extra_events "Author 1 <author1@example2.com>" 5])
    as [H _].
  cbv zeta in H.
  destruct (H Hpos) as (_ & _ & _ & _ & Hc & _).
  exact Hc.
Defined.

End MetricsProofs.
